(** * Multi-file find/replace: the result model and the replacement engine

    A shallow embedding of [src/search/SearchModel.js] (the result store) and
    of the replacement utilities ([parseDollars], [_doReplaceInDocument],
    [_doReplaceOnDisk], [_doReplaceInOneFile], [performReplacements]).

    JavaScript strings are modelled as [string], numbers that hold offsets,
    positions and timestamps as [Z], arrays as [list], plain objects used as
    maps as insertion-ordered association lists (the order [Object.keys]
    reports), and the file system and the set of open documents as [gmap]s
    keyed by full path. *)

From Stdlib Require Import ZArith Ascii String List Permutation Sorted Lia.
From stdpp Require Import gmap strings list.

Local Open Scope string_scope.
Local Open Scope list_scope.
Local Open Scope Z_scope.

(** ** JavaScript primitives used by the sources *)

Module Js.

(** [string.length] as a number. *)
Definition len (s : string) : Z := Z.of_nat (String.length s).

(** Relative index resolution of [String.prototype.slice]: a negative index
    counts from the end, and everything is clamped to [0 .. len]. *)
Definition clampIndex (n i : Z) : Z :=
  if i <? 0 then Z.max (n + i) 0 else Z.min i n.

(** [s.slice(start, end)]; [end_ = None] is the one-argument form. *)
Definition slice (s : string) (start : Z) (end_ : option Z) : string :=
  let n := len s in
  let from := clampIndex n start in
  let to := match end_ with None => n | Some e => clampIndex n e end in
  String.substring (Z.to_nat from) (Z.to_nat (Z.max (to - from) 0)) s.

(** [s.substr(1)]. *)
Definition substr1 (s : string) : string :=
  match s with
  | EmptyString => EmptyString
  | String _ r => r
  end.

(** [array.join("")]. *)
Fixpoint join (l : list string) : string :=
  match l with
  | [] => EmptyString
  | s :: r => s +:+ join r
  end.

(** [v || ""] for a value that is a string or [undefined]. *)
Definition or_empty (v : option string) : string :=
  match v with
  | Some s => s
  | None => EmptyString
  end.

(** [array[i]] for an array whose slots hold a string or [undefined]; an
    index past the end reads [undefined] as well. *)
Definition at_index (a : list (option string)) (i : nat) : option string :=
  match a !! i with
  | Some v => v
  | None => None
  end.

(** [string.replace(re, fn)] for a global regular expression [re].  The
    regular expression is given by [exec], its anchored matcher: [exec s]
    tells whether [re] matches at the head of [s], and then returns the
    length of the match (at least one character for the expressions used
    here) together with what the callback receives.  The scan is the one of
    the language: look for a match at the current position; on a match emit
    the callback's text and resume after the matched characters, otherwise
    copy one character and move on.  [skip] counts the characters of the last
    match that are still to be stepped over. *)
Fixpoint replace_from {A} (exec : string -> option (nat * A))
    (fn : A -> string) (skip : nat) (s : string) : string :=
  match s with
  | EmptyString => EmptyString
  | String c r =>
      match skip with
      | S n => replace_from exec fn n r
      | O =>
          match exec s with
          | Some (n, a) => fn a +:+ replace_from exec fn (Nat.pred n) r
          | None => String c (replace_from exec fn 0 r)
          end
      end
  end.

Definition replace {A} (exec : string -> option (nat * A))
    (fn : A -> string) (s : string) : string :=
  replace_from exec fn 0 s.

(** [\d]: an ASCII decimal digit. *)
Definition is_digit (c : ascii) : bool :=
  let n := nat_of_ascii c in (48 <=? n)%nat && (n <=? 57)%nat.

Definition digit_value (c : ascii) : nat := (nat_of_ascii c - 48)%nat.

(** [parseInt(s, 10)] on the strings the callback of [parseDollars] can
    receive: one or two digits give their value, anything else ("&") is
    [NaN], here [None]. *)
Definition parseInt10 (s : string) : option nat :=
  match s with
  | String c EmptyString =>
      if is_digit c then Some (digit_value c) else None
  | String c (String d EmptyString) =>
      if is_digit c && is_digit d
      then Some (10 * digit_value c + digit_value d)%nat else None
  | _ => None
  end.

(** A string of [k] dollar signs. *)
Fixpoint dollars (k : nat) : string :=
  match k with
  | O => EmptyString
  | S n => String "$" (dollars n)
  end.

(** [array.sort(cmp)].  The language leaves the algorithm open; the model is
    a stable insertion sort: each element goes in front of the first element
    of the sorted rest that it does not compare greater than. *)
Fixpoint insert_by {A} (cmp : A -> A -> Z) (x : A) (l : list A) : list A :=
  match l with
  | [] => [x]
  | y :: r => if cmp x y <=? 0 then x :: l else y :: insert_by cmp x r
  end.

Definition sort {A} (cmp : A -> A -> Z) (l : list A) : list A :=
  foldr (insert_by cmp) [] l.

(** [x] may stand before [y] in an array sorted with [cmp]. *)
Definition cmpLe {A} (cmp : A -> A -> Z) (x y : A) : Prop := cmp x y <= 0.

(** A plain object used as a map from strings: the properties in insertion
    order, each key once.  [keys] is [Object.keys(o)], [getProperty o k] is
    [o[k]] ([None] for [undefined]) and [setProperty o k v] is [o[k] = v].
    (The keys here are full paths, never array indices, so insertion order
    is the order the language reports.) *)
Definition keys {V} (o : list (string * V)) : list string := map fst o.

Fixpoint getProperty {V} (o : list (string * V)) (k : string) : option V :=
  match o with
  | [] => None
  | (k', v) :: r => if decide (k' = k) then Some v else getProperty r k
  end.

Fixpoint setProperty {V} (o : list (string * V)) (k : string) (v : V)
    : list (string * V) :=
  match o with
  | [] => [(k, v)]
  | (k', v') :: r =>
      if decide (k' = k) then (k, v) :: r else (k', v') :: setProperty r k v
  end.

End Js.

(** ** Data model *)

(** A position in a document, as CodeMirror has it. *)
Record Pos := { line : Z; ch : Z }.

(** Modelled from the spec: [CodeMirror.cmpPos] is not under src/.  The
    positions of a match are "ordered line/column positions": the comparison
    is by line, then by column ([a.line - b.line || a.ch - b.ch]). *)
Definition cmpPos (a b : Pos) : Z :=
  if line a - line b =? 0 then ch a - ch b else line a - line b.

(** One match of a search.  [result] is the array the regular expression
    returned for it: slot 0 is the whole match and slot [n] is group [n],
    [None] when the group did not take part. *)
Record Match := {
  start : Pos;
  end_ : Pos;
  startOffset : Z;
  endOffset : Z;
  isChecked : bool;
  result : list (option string)
}.

(** The match info of one file, as [SearchModel.addResultMatches] stores it;
    [timestamp] holds the [getTime()] value of the date. *)
Record MatchInfo := {
  matches : list Match;
  collapsed : bool;
  timestamp : Z
}.

(** ** The result store ([src/search/SearchModel.js]) *)

Module SearchModel.

Import Js.

Record QueryInfo := {
  query : string;
  caseSensitive : bool;
  isRegexp : bool
}.

(** The fields of a [SearchModel] object.  [results] holds the own
    properties of the results object and [resultsPrototype] its prototype
    when an assignment to the key "__proto__" has set one ([None] is the
    prototype of a plain object).  [_selectedEntry] is read by
    [getSortedFiles] and written nowhere in the file: [None] is
    [undefined]. *)
Record SearchModel := {
  results : list (string * MatchInfo);
  resultsPrototype : option MatchInfo;
  queryInfo : option QueryInfo;
  isReplace : bool;
  replaceText : option string;
  scope : option string;
  foundMaximum : bool;
  _selectedEntry : option string
}.

(** The events a method triggers on the model. *)
Inductive Event := EventClear | EventChange (quickChange : bool).

Definition clear (self : SearchModel) : SearchModel * list Event :=
  ({| results := [];
      resultsPrototype := None;
      queryInfo := None;
      isReplace := false;
      replaceText := None;
      scope := None;
      foundMaximum := false;
      _selectedEntry := _selectedEntry self |},
   [EventClear]).

(** [new SearchModel()]: the constructor calls [clear]. *)
Definition create : SearchModel * list Event :=
  clear {| results := [];
           resultsPrototype := None;
           queryInfo := None;
           isReplace := false;
           replaceText := None;
           scope := None;
           foundMaximum := false;
           _selectedEntry := None |}.

(** [this.results[fullpath] = {...}].  For the key "__proto__" the
    assignment makes the new object the prototype of the results object and
    adds no property of its own; for every other key it sets the property of
    that name. *)
Definition addResultMatches (self : SearchModel) (fullpath : string)
    (matches : list Match) (timestamp : Z) : SearchModel :=
  let entry :=
    {| matches := matches; collapsed := false; timestamp := timestamp |} in
  if decide (fullpath = "__proto__") then
    {| results := results self;
       resultsPrototype := Some entry;
       queryInfo := queryInfo self;
       isReplace := isReplace self;
       replaceText := replaceText self;
       scope := scope self;
       foundMaximum := foundMaximum self;
       _selectedEntry := _selectedEntry self |}
  else
    {| results := setProperty (results self) fullpath entry;
       resultsPrototype := resultsPrototype self;
       queryInfo := queryInfo self;
       isReplace := isReplace self;
       replaceText := replaceText self;
       scope := scope self;
       foundMaximum := foundMaximum self;
       _selectedEntry := _selectedEntry self |}.

Definition hasResults (self : SearchModel) : bool :=
  0 <? Z.of_nat (length (keys (results self))).

(** Returns [(files, matches)]. *)
Definition countFilesMatches (self : SearchModel) : Z * Z :=
  fold_left
    (fun '(numFiles, numMatches) '(_, item) =>
       (numFiles + 1, numMatches + Z.of_nat (length (matches item))))
    (results self) (0, 0).

Section GetSortedFiles.

(** [FileUtils.comparePaths] is not under src/: it is a parameter. *)
Variable comparePaths : string -> string -> Z.

(** The comparison function handed to [sort]. *)
Definition compareKeys (self : SearchModel) (key1 key2 : string) : Z :=
  if decide (_selectedEntry self = Some key1) then -1
  else if decide (_selectedEntry self = Some key2) then 1
  else comparePaths key1 key2.

Definition getSortedFiles (self : SearchModel) : list string :=
  let searchFiles := keys (results self) in
  sort (compareKeys self) searchFiles.

End GetSortedFiles.

Definition fireChanged (self : SearchModel) (quickChange : bool)
    : list Event :=
  [EventChange quickChange].

End SearchModel.

(** ** The replacement utilities *)

Module FindUtils.

Import Js.

(** *** [parseDollars] *)

(** Number of dollar signs at the head of [s]: what the greedy [\$+]
    consumes. *)
Fixpoint dollar_run (s : string) : nat :=
  match s with
  | String "$" r => S (dollar_run r)
  | _ => O
  end.

Fixpoint drop (n : nat) (s : string) : string :=
  match n, s with
  | S k, String _ r => drop k r
  | _, _ => s
  end.

(** [(\d{1,2}|&)] at the head of [s]: two digits when there are two, one
    digit otherwise, or the ampersand. *)
Definition index_token (s : string) : option string :=
  match s with
  | String c r =>
      if is_digit c then
        match r with
        | String d _ =>
            if is_digit d then Some (String c (String d EmptyString))
            else Some (String c EmptyString)
        | EmptyString => Some (String c EmptyString)
        end
      else if Ascii.eqb c "&" then Some "&"
      else None
  | EmptyString => None
  end.

(** [/(\$+)(\d{1,2}|&)/] anchored at the head of [s]; returns the length of
    the match and the two groups.  Giving back dollar signs cannot help the
    second group: the character after a shorter run is a dollar sign, which
    is neither a digit nor an ampersand. *)
Definition exec_dollar_expr (s : string) : option (nat * (string * string)) :=
  match dollar_run s with
  | O => None
  | k =>
      match index_token (drop k s) with
      | Some index => Some ((k + String.length index)%nat, (dollars k, index))
      | None => None
      end
  end.

(** [/\$\$/] anchored at the head of [s]. *)
Definition exec_dollar_pair (s : string) : option (nat * unit) :=
  match s with
  | String "$" (String "$" _) => Some (2%nat, tt)
  | _ => None
  end.

(** The callback of the first [replace] in [parseDollars]; [whole] is the
    concatenation of the two groups, and [parsedIndex = None] stands for
    [NaN] (which is not [0], and indexes nothing). *)
Definition dollar_callback (match_ : list (option string))
    (groups : string * string) : string :=
  let '(dollars, index) := groups in
  let whole := dollars +:+ index in
  let parsedIndex := parseInt10 index in
  if Nat.odd (String.length dollars) then
    if String.eqb index "&" then
      substr1 dollars +:+ or_empty (at_index match_ 0)
    else if negb (bool_decide (parsedIndex = Some O)) then
      substr1 dollars +:+ or_empty (parsedIndex ≫= at_index match_)
    else whole
  else whole.

(** The first pass of [parseDollars]: the dollar expressions. *)
Definition expand_dollar_exprs (replaceWith : string)
    (match_ : list (option string)) : string :=
  replace exec_dollar_expr (dollar_callback match_) replaceWith.

(** The second pass of [parseDollars]: every pair of dollar signs becomes
    one. *)
Definition unescape_dollars (s : string) : string :=
  replace exec_dollar_pair (fun _ => "$") s.

(** The text holds no two dollar signs in a row. *)
Fixpoint hasNoDollarPair (s : string) : bool :=
  match s with
  | EmptyString => true
  | String _ r =>
      match exec_dollar_pair s with
      | Some _ => false
      | None => hasNoDollarPair r
      end
  end.

Definition parseDollars (replaceWith : string)
    (match_ : list (option string)) : string :=
  unescape_dollars (expand_dollar_exprs replaceWith match_).

(** The outcome of a promise once it is settled. *)
Inductive Promise (A : Type) :=
  | resolved (a : A)
  | rejected (error : string).
Arguments resolved {A} a.
Arguments rejected {A} error.

Definition ERROR_FILE_CHANGED : string := "fileChanged".

(** *** Documents

    The editor's text buffer is a collaborator of these sources, known by
    its interface only.  A document is modelled by the record of what was
    asked of it: every batch operation is one transaction, holding the
    [replaceRange] calls made inside it, in order. *)

Inductive Edit := ReplaceRange (text : string) (from to : Pos).

Record Document := {
  transactions : list (list Edit);
  batch : option (list Edit)
}.

Definition newDocument : Document := {| transactions := []; batch := None |}.

(** Modelled from the spec: [Document.replaceRange] is not under src/.
    "BufferHandle.replaceRange(text, start, end)": the call is part of the
    batch in progress, or a transaction of its own. *)
Definition replaceRange (text : string) (from to : Pos) (doc : Document)
    : Document :=
  match batch doc with
  | Some es =>
      {| transactions := transactions doc;
         batch := Some (es ++ [ReplaceRange text from to]) |}
  | None =>
      {| transactions := transactions doc ++ [[ReplaceRange text from to]];
         batch := None |}
  end.

(** Modelled from the spec: [Document.batchOperation] is not under src/.
    "BufferHandle.scopedBatchEdit(fn) (atomic edit transaction)": runs [fn]
    with a batch open and closes it as one transaction; inside another batch
    it only runs [fn]. *)
Definition batchOperation (fn : Document -> Document) (doc : Document)
    : Document :=
  match batch doc with
  | Some _ => fn doc
  | None =>
      let d := fn {| transactions := transactions doc; batch := Some [] |} in
      {| transactions := transactions d ++ [default [] (batch d)];
         batch := None |}
  end.

(** *** [_doReplaceInDocument] *)

(** The text a match is replaced with. *)
Definition replacementFor (replaceText : string) (isRegexp : bool)
    (m : Match) : string :=
  if isRegexp then parseDollars replaceText (result m) else replaceText.

(** The comparison function of the sort: reverse document order. *)
Definition byStartDescending (match1 match2 : Match) : Z :=
  cmpPos (start match2) (start match1).

(** The call made on the document for a checked match. *)
Definition editFor (replaceText : string) (isRegexp : bool) (m : Match)
    : Edit :=
  ReplaceRange (replacementFor replaceText isRegexp m) (start m) (end_ m).

(** Returns the document, the match info (its [matches] array is sorted in
    place) and the promise. *)
Definition _doReplaceInDocument (doc : Document) (matchInfo : MatchInfo)
    (replaceText : string) (isRegexp : bool)
    : Document * MatchInfo * Promise unit :=
  let sorted := sort byStartDescending (matches matchInfo) in
  let matchInfo' :=
    {| matches := sorted;
       collapsed := collapsed matchInfo;
       timestamp := timestamp matchInfo |} in
  let doc' :=
    batchOperation
      (fun d =>
         fold_left
           (fun d m =>
              if isChecked m
              then replaceRange (replacementFor replaceText isRegexp m)
                                (start m) (end_ m) d
              else d)
           (matches matchInfo') d)
      doc in
  (doc', matchInfo', resolved tt).

(** *** The file system and the open documents *)

(** The line-ending conventions [FileUtils.LINE_ENDINGS_CRLF] and
    [FileUtils.LINE_ENDINGS_LF]. *)
Inductive LineEndings := LINE_ENDINGS_CRLF | LINE_ENDINGS_LF.

(** A file on disk: its bytes, its modification time and whether a write to
    it is refused. *)
Record File := {
  text : string;
  mtime : Z;
  readOnly : bool
}.

(** What the replacement engine works on: the disk, the documents that are
    open in memory, and the path of the current document if there is one. *)
Record World := {
  disk : gmap string File;
  openDocuments : gmap string Document;
  currentDocument : option string
}.

(** The errors of the file system stand for its "not-found/IO error"s. *)
Definition NOT_FOUND : string := "NotFound".
Definition NOT_WRITABLE : string := "NotWritable".

Definition CR : ascii := ascii_of_nat 13.
Definition LF : ascii := ascii_of_nat 10.

Definition exec_crlf (s : string) : option (nat * unit) :=
  match s with
  | String c (String d _) =>
      if Ascii.eqb c CR && Ascii.eqb d LF then Some (2%nat, tt) else None
  | _ => None
  end.

Definition exec_lf (s : string) : option (nat * unit) :=
  match s with
  | String c _ => if Ascii.eqb c LF then Some (1%nat, tt) else None
  | EmptyString => None
  end.

(** Modelled from the spec: the read path is not under src/.  It
    "is assumed to have already normalized line endings to a single
    canonical form": every CR LF pair of the bytes reads as one LF. *)
Definition normalizeText (bytes : string) : string :=
  replace exec_crlf (fun _ => String LF EmptyString) bytes.

(** [newContents.replace(/\n/g, "\r\n")]. *)
Definition toCRLF (s : string) : string :=
  replace exec_lf (fun _ => String CR (String LF EmptyString)) s.

Definition withDisk (w : World) (d : gmap string File) : World :=
  {| disk := d;
     openDocuments := openDocuments w;
     currentDocument := currentDocument w |}.

Definition withDocument (w : World) (fullPath : string) (doc : Document)
    : World :=
  {| disk := disk w;
     openDocuments := <[fullPath := doc]> (openDocuments w);
     currentDocument := currentDocument w |}.

(** Modelled from the spec: [file.write] is not under src/.  "Write the new
    text back to the file, replacing its entire contents"; it "fails with an
    IO error", here for a missing or read-only file.  A write moves the
    file's modification time forward. *)
Definition write (fullPath : string) (newContents : string) (w : World)
    : World * Promise unit :=
  match disk w !! fullPath with
  | None => (w, rejected NOT_FOUND)
  | Some f =>
      if readOnly f then (w, rejected NOT_WRITABLE)
      else
        (withDisk w
           (<[fullPath := {| text := newContents;
                             mtime := mtime f + 1;
                             readOnly := readOnly f |}]> (disk w)),
         resolved tt)
  end.

(** Modelled from the spec: [DocumentManager.getOpenDocumentForPath] is not
    under src/.  "getOpen(path) -> BufferHandle?". *)
Definition getOpenDocumentForPath (w : World) (fullPath : string)
    : option Document :=
  openDocuments w !! fullPath.

(** Modelled from the spec: [DocumentManager.getDocumentForPath] is not
    under src/.  "openForEditing(path) -> BufferHandle (fails with an
    open/IO error)": the document of an existing file, opened if it was not
    open yet. *)
Definition getDocumentForPath (w : World) (fullPath : string)
    : World * Promise Document :=
  match openDocuments w !! fullPath with
  | Some doc => (w, resolved doc)
  | None =>
      match disk w !! fullPath with
      | Some _ => (withDocument w fullPath newDocument, resolved newDocument)
      | None => (w, rejected NOT_FOUND)
      end
  end.

Section Providers.

(** [FileUtils.sniffLineEndings], the line-ending convention detected in a
    file's bytes ([None] when there is none), and [FileUtils.comparePaths]
    are not under src/: they are parameters of what follows. *)
Variable sniffLineEndings : string -> option LineEndings.
Variable comparePaths : string -> string -> Z.

(** Modelled from the spec: [DocumentManager.getDocumentText] is not under
    src/.  "Read the file's current full text and current modification
    timestamp plus detected line-ending convention"; it "fails with a
    not-found/IO error". *)
Definition getDocumentText (w : World) (fullPath : string)
    : Promise (string * Z * option LineEndings) :=
  match disk w !! fullPath with
  | None => rejected NOT_FOUND
  | Some f =>
      resolved (normalizeText (text f), mtime f, sniffLineEndings (text f))
  end.

(** *** [_doReplaceOnDisk] *)

(** The loop over [matchInfo.matches]: the segments pushed so far and
    [lastIndex]. *)
Definition pushReplacement (contents replaceText : string) (isRegexp : bool)
    (acc : list string * Z) (m : Match) : list string * Z :=
  let '(result, lastIndex) := acc in
  if isChecked m then
    (result ++ [slice contents lastIndex (Some (startOffset m));
                replacementFor replaceText isRegexp m],
     endOffset m)
  else acc.

(** The text handed to [file.write]: the body of the success handler after
    the timestamp check. *)
Definition newContents (contents : string) (lineEndings : option LineEndings)
    (matchInfo : MatchInfo) (replaceText : string) (isRegexp : bool)
    : string :=
  let '(result, lastIndex) :=
    fold_left (pushReplacement contents replaceText isRegexp)
              (matches matchInfo) ([], 0) in
  let result := result ++ [slice contents lastIndex None] in
  let newContents := join result in
  match lineEndings with
  | Some LINE_ENDINGS_CRLF => toCRLF newContents
  | _ => newContents
  end.

(** The comparison function of an ascending sort by [startOffset]. *)
Definition byStartOffset (match1 match2 : Match) : Z :=
  startOffset match1 - startOffset match2.

(** The algorithm as the specification words it, for comparison with
    [newContents]: "Sort matches by startOffset ascending", then walk them. *)
Definition newContentsOfSorted (contents : string)
    (lineEndings : option LineEndings) (matchInfo : MatchInfo)
    (replaceText : string) (isRegexp : bool) : string :=
  newContents contents lineEndings
    {| matches := sort byStartOffset (matches matchInfo);
       collapsed := collapsed matchInfo;
       timestamp := timestamp matchInfo |}
    replaceText isRegexp.

(** The text written for a content read with line endings [lineEndings]
    when nothing is replaced. *)
Definition encodeLineEndings (lineEndings : option LineEndings)
    (contents : string) : string :=
  match lineEndings with
  | Some LINE_ENDINGS_CRLF => toCRLF contents
  | _ => contents
  end.

(** The walk of [_doReplaceOnDisk] written as a recursion over the matches
    in the order in which they are stored, for comparison with the loop of
    [newContents]: from [lastIndex] on, a checked match gives the text
    between [lastIndex] and its [startOffset], then its replacement, and
    the walk goes on from its [endOffset]; an unchecked match gives nothing
    and leaves [lastIndex] where it is; behind the last match comes the
    text from [lastIndex] to the end. *)
Fixpoint walkFrom (contents replaceText : string) (isRegexp : bool)
    (lastIndex : Z) (ms : list Match) : string :=
  match ms with
  | [] => slice contents lastIndex None
  | m :: rest =>
      if isChecked m then
        slice contents lastIndex (Some (startOffset m))
        +:+ (if isRegexp then parseDollars replaceText (result m)
             else replaceText)
        +:+ walkFrom contents replaceText isRegexp (endOffset m) rest
      else walkFrom contents replaceText isRegexp lastIndex rest
  end.

(** The bytes of a file, if it exists. *)
Definition bytesAt (w : World) (fullPath : string) : option string :=
  text <$> disk w !! fullPath.

(** The bytes hold no CR LF pair. *)
Fixpoint hasNoCRLF (s : string) : bool :=
  match s with
  | EmptyString => true
  | String _ r =>
      match exec_crlf s with
      | Some _ => false
      | None => hasNoCRLF r
      end
  end.

(** Every LF of the bytes comes right after a CR; [afterCR] tells whether
    the character before [s] was one. *)
Fixpoint everyLFAfterCR (afterCR : bool) (s : string) : bool :=
  match s with
  | EmptyString => true
  | String c r =>
      (if Ascii.eqb c LF then afterCR else true)
      && everyLFAfterCR (Ascii.eqb c CR) r
  end.

Definition _doReplaceOnDisk (fullPath : string) (matchInfo : MatchInfo)
    (replaceText : string) (isRegexp : bool) (w : World)
    : World * Promise unit :=
  match getDocumentText w fullPath with
  | rejected err => (w, rejected err)
  | resolved (contents, timestamp_, lineEndings) =>
      if negb (timestamp_ =? timestamp matchInfo) then
        (w, rejected ERROR_FILE_CHANGED)
      else
        write fullPath
          (newContents contents lineEndings matchInfo replaceText isRegexp) w
  end.

(** *** [_doReplaceInOneFile] *)

(** The options object; a missing object or a missing field reads as
    false. *)
Record Options := {
  forceFilesOpen : bool;
  isRegexp : bool
}.

Definition noOptions : Options :=
  {| forceFilesOpen := false; isRegexp := false |}.

(** Runs [_doReplaceInDocument] on the document of [fullPath] and stores the
    document back: the document is shared with the set of open documents. *)
Definition replaceInOpenDocument (fullPath : string) (doc : Document)
    (matchInfo : MatchInfo) (replaceText : string) (isRegexp : bool)
    (w : World) : World * MatchInfo * Promise unit :=
  let '(doc', matchInfo', p) :=
    _doReplaceInDocument doc matchInfo replaceText isRegexp in
  (withDocument w fullPath doc', matchInfo', p).

Definition _doReplaceInOneFile (fullPath : string) (matchInfo : MatchInfo)
    (replaceText : string) (options : option Options) (w : World)
    : World * MatchInfo * Promise unit :=
  let doc := getOpenDocumentForPath w fullPath in
  let options := default noOptions options in
  match doc with
  | None =>
      if forceFilesOpen options then
        match getDocumentForPath w fullPath with
        | (w', resolved newDoc) =>
            replaceInOpenDocument fullPath newDoc matchInfo replaceText
              (isRegexp options) w'
        | (w', rejected err) => (w', matchInfo, rejected err)
        end
      else
        let '(w', p) :=
          _doReplaceOnDisk fullPath matchInfo replaceText
            (isRegexp options) w in
        (w', matchInfo, p)
  | Some doc =>
      replaceInOpenDocument fullPath doc matchInfo replaceText
        (isRegexp options) w
  end.

(** Two worlds hold the same file and the same open document at a path. *)
Definition agreeAt (fullPath : string) (w1 w2 : World) : Prop :=
  disk w1 !! fullPath = disk w2 !! fullPath /\
  openDocuments w1 !! fullPath = openDocuments w2 !! fullPath.

(** *** [performReplacements] *)

Definition hasCheckedMatches (result : MatchInfo) : bool :=
  existsb isChecked (matches result).

(** One entry of the array a failed batch is rejected with. *)
Record ItemError := { item : string; error : string }.

(** The outcome of the batch. *)
Inductive BatchPromise :=
  | batchResolved
  | batchRejected (errors : list ItemError).

(** The state the per-file operations work on: the results object (its match
    arrays are sorted in place) and the world. *)
Definition BatchState : Type := list (string * MatchInfo) * World.

(** Modelled from the spec: [Async.doInParallel_aggregateErrors] is not
    under src/.  One operation per item; it "succeeds overall only if every
    file succeeded; otherwise fails with the complete list of {path, error}
    pairs for every file that failed".  The operations touch disjoint files
    and documents, so they are run one after the other, in the order of the
    items. *)
Fixpoint doInParallel_aggregateErrors {I S : Type} (items : list I)
    (name : I -> string) (beginProcessItem : I -> S -> S * Promise unit)
    (st : S) : S * list ItemError :=
  match items with
  | [] => (st, [])
  | i :: rest =>
      let '(st1, p) := beginProcessItem i st in
      let '(st2, errors) :=
        doInParallel_aggregateErrors rest name beginProcessItem st1 in
      match p with
      | resolved _ => (st2, errors)
      | rejected err => (st2, {| item := name i; error := err |} :: errors)
      end
  end.

Definition settle (errors : list ItemError) : BatchPromise :=
  match errors with
  | [] => batchResolved
  | _ => batchRejected errors
  end.

(** The operation started for one key: [results[fullPath]] is read when the
    operation starts, and what [_doReplaceInDocument] did to its [matches]
    array shows in the results object. *)
Definition replaceItem (replaceText : string) (options : option Options)
    (entry : string * MatchInfo) (st : BatchState)
    : BatchState * Promise unit :=
  let '(fullPath, matchInfo) := entry in
  let '(results, w) := st in
  let '(w', matchInfo', p) :=
    _doReplaceInOneFile fullPath matchInfo replaceText options w in
  ((setProperty results fullPath matchInfo', w'), p).

(** The [done] handler: with [forceFilesOpen], make the first changed
    document current unless the current one was changed. *)
Definition selectFirstModified (results : list (string * MatchInfo))
    (options : option Options) (w : World) : World :=
  if forceFilesOpen (default noOptions options) then
    let unmodified :=
      match currentDocument w with
      | None => true
      | Some fullPath =>
          match getProperty results fullPath with
          | None => true
          | Some r => negb (hasCheckedMatches r)
          end
      end in
    if unmodified then
      let sortedPaths := sort comparePaths (keys results) in
      let firstPath :=
        find (fun path =>
                match getProperty results path with
                | Some r => hasCheckedMatches r
                | None => false
                end) sortedPaths in
      match firstPath with
      | Some path =>
          if String.eqb path EmptyString then w
          else
            match getOpenDocumentForPath w path with
            | Some _ =>
                {| disk := disk w;
                   openDocuments := openDocuments w;
                   currentDocument := Some path |}
            | None => w
            end
      | None => w
      end
    else w
  else w.

(** The entry of the rejection array for an operation, if it failed. *)
Definition failureOf (entry : string * MatchInfo) (p : Promise unit)
    : option ItemError :=
  match p with
  | resolved _ => None
  | rejected err => Some {| item := entry.1; error := err |}
  end.

Definition performReplacements (results : list (string * MatchInfo))
    (replaceText : string) (options : option Options) (w : World)
    : BatchState * BatchPromise :=
  let '((results', w'), errors) :=
    doInParallel_aggregateErrors results fst
      (replaceItem replaceText options) (results, w) in
  match settle errors with
  | batchResolved =>
      ((results', selectFirstModified results' options w'), batchResolved)
  | p => ((results', w'), p)
  end.

End Providers.

End FindUtils.

(** ** Sample data *)

Import Js FindUtils.

Module Sample.

Definition pos (l c : Z) : Pos := {| line := l; ch := c |}.

(** Two matches on the first line of a file, "foo" at columns 5 to 8 and
    "bar" at columns 10 to 13, in document order. *)
Definition foo : Match :=
  {| start := pos 0 5; end_ := pos 0 8; startOffset := 5; endOffset := 8;
     isChecked := true; result := [Some "foo"] |}.

Definition bar : Match :=
  {| start := pos 0 10; end_ := pos 0 13; startOffset := 10; endOffset := 13;
     isChecked := true; result := [Some "bar"] |}.

Definition uncheck (m : Match) : Match :=
  {| start := start m; end_ := end_ m; startOffset := startOffset m;
     endOffset := endOffset m; isChecked := false; result := result m |}.

Definition info (ms : list Match) : MatchInfo :=
  {| matches := ms; collapsed := false; timestamp := 1000 |}.

Definition contents : string := "01234foo89bar".

(** "a", CR LF, "b", LF, "c": a file with mixed line endings; and "a",
    CR LF, "b". *)
Definition mixedBytes : string :=
  String "a" (String CR (String LF (String "b" (String LF "c")))).

Definition crlfBytes : string := String "a" (String CR (String LF "b")).

Definition file (bytes : string) (time : Z) : File :=
  {| text := bytes; mtime := time; readOnly := false |}.

(** A path comparison for the examples: shorter paths first. *)
Definition compareLengths (path1 path2 : string) : Z :=
  len path1 - len path2.

Definition model (entries : list (string * MatchInfo))
    (selected : option string) : SearchModel.SearchModel :=
  {| SearchModel.results := entries;
     SearchModel.resultsPrototype := None;
     SearchModel.queryInfo := None;
     SearchModel.isReplace := false;
     SearchModel.replaceText := None;
     SearchModel.scope := None;
     SearchModel.foundMaximum := false;
     SearchModel._selectedEntry := selected |}.

(** Three files with the two sample matches each; the second file was
    changed after the search. *)
Definition threeResults : list (string * MatchInfo) :=
  [("/a.js", info [foo; bar]); ("/b.js", info [foo; bar]);
   ("/c.js", info [foo; bar])].

Definition threeFiles : list (string * File) :=
  [("/a.js", file contents 1000); ("/b.js", file contents 2000);
   ("/c.js", file contents 1000)].

Definition world (files : list (string * File))
    (docs : list (string * Document)) : World :=
  {| disk := list_to_map files;
     openDocuments := list_to_map docs;
     currentDocument := None |}.

End Sample.

(** ** Notions used to state further properties *)

(** The text holds no dollar sign. *)
Fixpoint hasNoDollar (s : string) : bool :=
  match s with
  | EmptyString => true
  | String c r => negb (Ascii.eqb c "$") && hasNoDollar r
  end.

(** A file's text cut at its matches: each piece is the text between the
    previous match and a match (the gap), and the text of the match. *)
Fixpoint textOf (pieces : list (string * string)) : string :=
  match pieces with
  | [] => EmptyString
  | (gap, matched) :: r => gap +:+ matched +:+ textOf r
  end.

(** The matches lie in the text at the places of the pieces, from offset
    [base] on: every match starts where its gap ends and ends where its text
    ends, and the next gap starts there. *)
Inductive LaidOut : Z -> list Match -> list (string * string) -> Prop :=
  | LaidOut_nil (base : Z) : LaidOut base [] []
  | LaidOut_cons (base : Z) (m : Match) (ms : list Match)
      (gap matched : string) (pieces : list (string * string)) :
      startOffset m = base + len gap ->
      endOffset m = startOffset m + len matched ->
      LaidOut (endOffset m) ms pieces ->
      LaidOut base (m :: ms) ((gap, matched) :: pieces).

(** The pieces put together again, with the replacement in place of the
    text of every checked match. *)
Fixpoint replacedText (replaceText : string) (isRegexp : bool)
    (ms : list Match) (pieces : list (string * string)) : string :=
  match ms, pieces with
  | m :: ms', (gap, matched) :: pieces' =>
      gap
      +:+ (if isChecked m then replacementFor replaceText isRegexp m
           else matched)
      +:+ replacedText replaceText isRegexp ms' pieces'
  | _, _ => EmptyString
  end.

(** The match info [after] is [before] with its matches in another order. *)
Definition reordered (before after : MatchInfo) : Prop :=
  Permutation (matches after) (matches before) /\
  collapsed after = collapsed before /\
  timestamp after = timestamp before.

(** The stores a program can build: a new one, and what [clear] and
    [addResultMatches] make of a store. *)
Inductive Built : SearchModel.SearchModel -> Prop :=
  | Built_create : Built SearchModel.create.1
  | Built_clear (self : SearchModel.SearchModel) :
      Built self -> Built (SearchModel.clear self).1
  | Built_add (self : SearchModel.SearchModel) (fullpath : string)
      (ms : list Match) (time : Z) :
      Built self ->
      Built (SearchModel.addResultMatches self fullpath ms time).

(** * Properties *)

(** ** Facts about [sort] *)

Section SortFacts.

Context {A : Type} (cmp : A -> A -> Z).

Lemma insert_by_Permutation (x : A) (l : list A) :
  Permutation (insert_by cmp x l) (x :: l).
Proof.
  induction l as [|y r IH]; simpl; [reflexivity|].
  destruct (cmp x y <=? 0); [reflexivity|].
  rewrite IH. apply perm_swap.
Qed.

Lemma sort_Permutation (l : list A) : Permutation (sort cmp l) l.
Proof.
  induction l as [|x r IH]; simpl; [reflexivity|].
  unfold sort in *. rewrite insert_by_Permutation. by constructor.
Qed.

(** A sorted array is left as it is. *)
Lemma sort_Sorted_id (l : list A) : Sorted (cmpLe cmp) l -> sort cmp l = l.
Proof.
  induction 1 as [|x r Hs IH Hhd]; [reflexivity|].
  unfold sort in *. simpl. rewrite IH.
  destruct Hhd as [|y r' Hxy]; [reflexivity|].
  simpl. unfold cmpLe in Hxy.
  destruct (Z.leb_spec (cmp x y) 0); [reflexivity|lia].
Qed.

(** The comparison function is consistent: any two elements compare one way
    or the other, and the order is transitive. *)
Hypothesis cmp_total : forall x y, cmpLe cmp x y \/ cmpLe cmp y x.
Hypothesis cmp_trans :
  forall x y z, cmpLe cmp x y -> cmpLe cmp y z -> cmpLe cmp x z.

Lemma insert_by_StronglySorted (x : A) (l : list A) :
  StronglySorted (cmpLe cmp) l ->
  StronglySorted (cmpLe cmp) (insert_by cmp x l).
Proof.
  induction 1 as [|y r Hs IH Hall]; simpl.
  - repeat constructor.
  - destruct (Z.leb_spec (cmp x y) 0) as [Hle|Hgt].
    + constructor; [by constructor|].
      constructor; [exact Hle|].
      eapply Forall_impl; [exact Hall|].
      intros z Hz. by eapply cmp_trans.
    + constructor; [exact IH|].
      rewrite insert_by_Permutation. constructor; [|exact Hall].
      destruct (cmp_total x y) as [H|H]; [unfold cmpLe in H; lia|exact H].
Qed.

Lemma sort_StronglySorted (l : list A) :
  StronglySorted (cmpLe cmp) (sort cmp l).
Proof.
  induction l as [|x r IH]; simpl; [constructor|].
  by apply insert_by_StronglySorted.
Qed.

End SortFacts.

(** ** Facts about strings *)

Lemma append_cons (c : ascii) (r s : string) :
  String c r +:+ s = String c (r +:+ s).
Proof. reflexivity. Qed.

Lemma append_empty_l (s : string) : EmptyString +:+ s = s.
Proof. reflexivity. Qed.

Lemma append_empty_r (s : string) : s +:+ EmptyString = s.
Proof.
  induction s as [|c r IH]; [reflexivity|].
  by rewrite append_cons, IH.
Qed.

Lemma append_assoc (a b c : string) : (a +:+ b) +:+ c = a +:+ (b +:+ c).
Proof.
  induction a as [|x r IH]; [reflexivity|].
  by rewrite !append_cons, IH.
Qed.

Lemma join_app (a b : list string) : join (a ++ b) = join a +:+ join b.
Proof.
  induction a as [|s a IH]; [reflexivity|].
  simpl. by rewrite IH, append_assoc.
Qed.

Lemma substring_all (s : string) : substring 0 (String.length s) s = s.
Proof. induction s as [|c r IH]; simpl; [reflexivity|by rewrite IH]. Qed.

Lemma slice_from_start (s : string) : slice s 0 None = s.
Proof.
  unfold slice, clampIndex, len. simpl.
  replace (Z.min 0 (Z.of_nat (String.length s))) with 0 by lia.
  rewrite Z.sub_0_r, Z.max_l by lia.
  rewrite Nat2Z.id. apply substring_all.
Qed.

(** ** Dollar expressions *)

Lemma length_dollars (k : nat) : String.length (dollars k) = k.
Proof. induction k as [|k IH]; simpl; [reflexivity|by rewrite IH]. Qed.

Lemma dollar_run_dollars (k : nat) (s : string) :
  dollar_run s = O -> dollar_run (dollars k +:+ s) = k.
Proof.
  intros Hs. induction k as [|k IH]; [exact Hs|].
  simpl dollars. rewrite append_cons. simpl. by rewrite IH.
Qed.

Lemma drop_dollars (k : nat) (s : string) : drop k (dollars k +:+ s) = s.
Proof.
  induction k as [|k IH]; [by destruct s|].
  simpl dollars. rewrite append_cons. exact IH.
Qed.

(** After a match, the scan resumes behind the matched characters. *)
Lemma replace_from_skip {A} (exec : string -> option (nat * A))
    (fn : A -> string) (pre s : string) :
  replace_from exec fn (String.length pre) (pre +:+ s)
  = replace_from exec fn 0 s.
Proof.
  induction pre as [|c pre IH]; [by destruct s|].
  rewrite append_cons. exact IH.
Qed.

Lemma is_digit_dollar : is_digit "$" = false.
Proof. reflexivity. Qed.

(** An index token starts with a digit or an ampersand, and is a prefix of
    the text it is read from. *)
Lemma index_token_inv (s index : string) :
  index_token s = Some index ->
  dollar_run s = O /\ index <> EmptyString /\
  exists rest, s = index +:+ rest.
Proof.
  destruct s as [|c r]; [discriminate|]. simpl.
  assert (Hrun : is_digit c = true \/ Ascii.eqb c "&" = true ->
                 dollar_run (String c r) = O).
  { intros H. simpl. destruct (Ascii.eqb_spec c "$") as [->|Hne].
    - destruct H as [H|H]; discriminate H.
    - destruct c as [[] [] [] [] [] [] [] []]; try reflexivity.
      by contradiction Hne. }
  destruct (is_digit c) eqn:Hc.
  - destruct r as [|d r'].
    + intros [= <-]. split; [apply Hrun; by left|].
      split; [discriminate|]. by exists EmptyString.
    + destruct (is_digit d).
      * intros [= <-]. split; [apply Hrun; by left|].
        split; [discriminate|]. by exists r'.
      * intros [= <-]. split; [apply Hrun; by left|].
        split; [discriminate|]. by exists (String d r').
  - destruct (Ascii.eqb_spec c "&") as [->|Hne]; [|discriminate].
    intros [= <-]. split; [reflexivity|]. split; [discriminate|].
    by exists r.
Qed.

Lemma exec_dollar_expr_at_run (k : nat) (s : string) :
  dollar_run s = O ->
  exec_dollar_expr (dollars (S k) +:+ s)
  = match index_token s with
    | Some index =>
        Some ((S k + String.length index)%nat, (dollars (S k), index))
    | None => None
    end.
Proof.
  intros Hrun. unfold exec_dollar_expr.
  by rewrite dollar_run_dollars, drop_dollars.
Qed.

Lemma length_append (a b : string) :
  String.length (a +:+ b) = (String.length a + String.length b)%nat.
Proof.
  induction a as [|c a IH]; [reflexivity|].
  rewrite append_cons. simpl. by rewrite IH.
Qed.

(** The first pass at a run of dollar signs that an index token follows:
    the callback gets the whole run and the token, and the scan goes on
    after the token. *)
Lemma expand_dollar_exprs_at_token (k : nat) (index rest : string)
    (match_ : list (option string)) :
  index_token (index +:+ rest) = Some index ->
  expand_dollar_exprs (dollars (S k) +:+ index +:+ rest) match_
  = dollar_callback match_ (dollars (S k), index)
    +:+ expand_dollar_exprs rest match_.
Proof.
  intros Htoken.
  destruct (index_token_inv _ _ Htoken) as (Hrun & Hne & _).
  unfold expand_dollar_exprs, replace.
  pose proof (exec_dollar_expr_at_run k _ Hrun) as Hexec.
  rewrite Htoken in Hexec.
  change (dollars (S k) +:+ index +:+ rest)
    with (String "$" (dollars k +:+ index +:+ rest)) in Hexec |- *.
  cbn [replace_from]. rewrite Hexec. f_equal.
  replace (Nat.pred (S k + String.length index))
    with (String.length (dollars k +:+ index))
    by (rewrite length_append, length_dollars; reflexivity).
  rewrite <- append_assoc. apply replace_from_skip.
Qed.

(** A run of dollar signs that no index token follows is copied. *)
Lemma expand_dollar_exprs_without_token (k : nat) (s : string)
    (match_ : list (option string)) :
  dollar_run s = O -> index_token s = None ->
  expand_dollar_exprs (dollars k +:+ s) match_
  = dollars k +:+ expand_dollar_exprs s match_.
Proof.
  intros Hrun Htoken. induction k as [|k IH]; [reflexivity|].
  unfold expand_dollar_exprs, replace in *.
  pose proof (exec_dollar_expr_at_run k _ Hrun) as Hexec.
  rewrite Htoken in Hexec.
  change (dollars (S k) +:+ s)
    with (String "$" (dollars k +:+ s)) in Hexec |- *.
  cbn [replace_from]. rewrite Hexec, IH. reflexivity.
Qed.

(** Any other character is copied. *)
Lemma expand_dollar_exprs_other (c : ascii) (s : string)
    (match_ : list (option string)) :
  c <> "$"%char ->
  expand_dollar_exprs (String c s) match_
  = String c (expand_dollar_exprs s match_).
Proof.
  intros Hne. unfold expand_dollar_exprs, replace. cbn [replace_from].
  assert (exec_dollar_expr (String c s) = None) as ->; [|reflexivity].
  unfold exec_dollar_expr.
  assert (dollar_run (String c s) = O) as ->; [|reflexivity].
  simpl. destruct c as [[] [] [] [] [] [] [] []]; try reflexivity.
  by contradiction Hne.
Qed.

Lemma substr1_dollars (k : nat) : substr1 (dollars (S k)) = dollars k.
Proof. reflexivity. Qed.

(** The callback by parity of the run: an even run leaves the expression as
    it is; an odd run drops one dollar sign and puts the value in place of
    the token, except for the index zero. *)
Lemma dollar_callback_even (k : nat) (index : string)
    (match_ : list (option string)) :
  Nat.odd (S k) = false ->
  dollar_callback match_ (dollars (S k), index) = dollars (S k) +:+ index.
Proof.
  intros Hk. unfold dollar_callback. by rewrite length_dollars, Hk.
Qed.

Lemma dollar_callback_odd_whole_match (k : nat)
    (match_ : list (option string)) :
  Nat.odd (S k) = true ->
  dollar_callback match_ (dollars (S k), "&")
  = dollars k +:+ or_empty (at_index match_ 0).
Proof.
  intros Hk. unfold dollar_callback. by rewrite length_dollars, Hk.
Qed.

Lemma dollar_callback_odd_group (k n : nat) (index : string)
    (match_ : list (option string)) :
  Nat.odd (S k) = true -> parseInt10 index = Some (S n) ->
  dollar_callback match_ (dollars (S k), index)
  = dollars k +:+ or_empty (at_index match_ (S n)).
Proof.
  intros Hk Hindex. unfold dollar_callback.
  rewrite length_dollars, Hk, Hindex.
  destruct (String.eqb_spec index "&") as [->|_]; [discriminate|].
  by rewrite bool_decide_eq_false_2 by discriminate.
Qed.

Lemma dollar_callback_odd_zero (k : nat) (index : string)
    (match_ : list (option string)) :
  Nat.odd (S k) = true -> parseInt10 index = Some O ->
  dollar_callback match_ (dollars (S k), index) = dollars (S k) +:+ index.
Proof.
  intros Hk Hindex. unfold dollar_callback.
  rewrite length_dollars, Hk, Hindex.
  destruct (String.eqb_spec index "&") as [->|_]; [discriminate|].
  by rewrite bool_decide_eq_true_2.
Qed.

(** The second pass. *)
Lemma unescape_dollars_pair (s : string) :
  unescape_dollars (String "$" (String "$" s))
  = String "$" (unescape_dollars s).
Proof. unfold unescape_dollars, replace. by destruct s. Qed.

Lemma unescape_dollars_run (j : nat) (s : string) :
  unescape_dollars (dollars (2 * j) +:+ s) = dollars j +:+ unescape_dollars s.
Proof.
  induction j as [|j IH]; [reflexivity|].
  replace (2 * S j)%nat with (S (S (2 * j))) by lia.
  change (dollars (S (S (2 * j))) +:+ s)
    with (String "$" (String "$" (dollars (2 * j) +:+ s))).
  by rewrite unescape_dollars_pair, IH.
Qed.

Lemma unescape_dollars_without_pair (s : string) :
  hasNoDollarPair s = true -> unescape_dollars s = s.
Proof.
  unfold unescape_dollars, replace.
  induction s as [|c r IH]; [reflexivity|].
  cbn [hasNoDollarPair replace_from].
  destruct (exec_dollar_pair (String c r)) as [[n u]|]; [discriminate|].
  intros H. by rewrite IH.
Qed.

Lemma exec_dollar_pair_other (c : ascii) (r : string) :
  c <> "$"%char -> exec_dollar_pair (String c r) = None.
Proof.
  intros Hne. destruct c as [[] [] [] [] [] [] [] []]; try reflexivity.
  by contradiction Hne.
Qed.

Lemma exec_dollar_pair_last (c : ascii) :
  exec_dollar_pair (String c EmptyString) = None.
Proof. by destruct c as [[] [] [] [] [] [] [] []]. Qed.

Lemma is_digit_not_dollar (c : ascii) : is_digit c = true -> c <> "$"%char.
Proof. intros H ->. discriminate H. Qed.

(** An index token holds no dollar sign. *)
Lemma index_token_without_pair (index : string) :
  index_token index = Some index -> hasNoDollarPair index = true.
Proof.
  destruct index as [|c [|d [|e r]]]; [discriminate|..].
  - intros _. cbn [hasNoDollarPair]. by rewrite exec_dollar_pair_last.
  - unfold index_token. destruct (is_digit c) eqn:Hc.
    + intros _. cbn [hasNoDollarPair].
      rewrite exec_dollar_pair_other by (by apply is_digit_not_dollar).
      by rewrite exec_dollar_pair_last.
    + destruct (Ascii.eqb c "&"); discriminate.
  - unfold index_token. destruct (is_digit c).
    + destruct (is_digit d); discriminate.
    + destruct (Ascii.eqb c "&"); discriminate.
Qed.

(** A template made of a run of dollar signs and an index token: the first
    pass is the callback alone. *)
Lemma parseDollars_run_and_token (k : nat) (index : string)
    (match_ : list (option string)) :
  index_token index = Some index ->
  parseDollars (dollars (S k) +:+ index) match_
  = unescape_dollars (dollar_callback match_ (dollars (S k), index)).
Proof.
  intros Htoken. unfold parseDollars. f_equal.
  rewrite <- (append_empty_r index) at 1.
  rewrite expand_dollar_exprs_at_token by (by rewrite append_empty_r).
  apply append_empty_r.
Qed.

(** A template made of a run of dollar signs and an index of a group: the
    whole of [parseDollars].  After an odd run of [2j+1] dollar signs the
    result is [j] dollar signs and the text of the group with its own pairs
    of dollar signs made single; an even run of [2j+2] gives [j+1] dollar
    signs and the index. *)
Lemma parseDollars_run_and_group (j n : nat) (index : string)
    (match_ : list (option string)) :
  index_token index = Some index -> parseInt10 index = Some (S n) ->
  parseDollars (dollars (2 * j + 1) +:+ index) match_
  = dollars j +:+ unescape_dollars (or_empty (at_index match_ (S n))) /\
  parseDollars (dollars (2 * j + 2) +:+ index) match_
  = dollars (j + 1) +:+ index.
Proof.
  intros Htoken Hindex.
  assert (Hplain : hasNoDollarPair index = true)
    by (by apply index_token_without_pair).
  split.
  - replace (2 * j + 1)%nat with (S (2 * j)) by lia.
    rewrite parseDollars_run_and_token by exact Htoken.
    rewrite (dollar_callback_odd_group _ n) by
      (first [exact Hindex
             |rewrite Nat.odd_succ; apply Nat.even_mul; by left]).
    apply unescape_dollars_run.
  - replace (2 * j + 2)%nat with (S (S (2 * j))) by lia.
    rewrite parseDollars_run_and_token by exact Htoken.
    rewrite dollar_callback_even.
    2:{ rewrite Nat.odd_succ, Nat.even_succ, <- Nat.negb_even.
        by rewrite Nat.even_mul. }
    replace (S (S (2 * j))) with (2 * (j + 1))%nat by lia.
    by rewrite unescape_dollars_run, unescape_dollars_without_pair.
Qed.

(** The examples of the specification, with the captures
    ["ab", "1", "2"]. *)
Example parseDollars_examples :
  let m := [Some "ab"; Some "1"; Some "2"] in
  parseDollars "$1-$2" m = "1-2" /\
  parseDollars "$$1" m = "$1" /\
  parseDollars "$$$1" m = "$1" /\
  parseDollars "$&/$3/$0" m = "ab//$0".
Proof. repeat split. Qed.

(** C3: what [parseDollars] makes of the two templates of the claim.  The
    even run of "$$1" leaves the literal "$1" for every match.  The odd run
    of "$$$1" gives one dollar sign and the text of group 1 after the second
    pass went over that text too: for a group 1 that matched "$$" the result
    is "$$", and not "$" followed by the text of the group. *)
Theorem parseDollars_odd_escape_unescapes_group_text :
  (forall match_, parseDollars "$$1" match_ = "$1") /\
  (forall match_,
     parseDollars "$$$1" match_
     = "$" +:+ unescape_dollars (or_empty (at_index match_ 1))) /\
  parseDollars "$$$1" [Some "$$"; Some "$$"] = "$$" /\
  parseDollars "$$$1" [Some "$$"; Some "$$"]
    <> "$" +:+ or_empty (at_index [Some "$$"; Some "$$"] 1).
Proof.
  split; [reflexivity|]. split; [|split; [reflexivity|discriminate]].
  intros match_.
  exact (proj1 (parseDollars_run_and_group 1 0 "1" match_ eq_refl eq_refl)).
Qed.

(** C4: what [parseDollars] puts for a group, for the whole match and for
    the index zero.  "$0" and "$00" pass through.  "$1" and "$&" give the
    text of group 1 and of the whole match (nothing for a group that took no
    part) after the second pass went over that text too: a group or a match
    that is "$$" comes out as "$", and "a$$b" as "a$b". *)
Theorem parseDollars_group_text_is_unescaped :
  (forall match_,
     parseDollars "$1" match_
     = unescape_dollars (or_empty (at_index match_ 1))) /\
  (forall match_,
     parseDollars "$&" match_
     = unescape_dollars (or_empty (at_index match_ 0))) /\
  (forall match_,
     parseDollars "$0" match_ = "$0" /\ parseDollars "$00" match_ = "$00") /\
  parseDollars "$1" [Some "ab"; None] = "" /\
  parseDollars "$1" [Some "$$"; Some "$$"] = "$" /\
  parseDollars "$&" [Some "a$$b"] = "a$b".
Proof.
  split.
  { intros match_.
    exact (proj1 (parseDollars_run_and_group 0 0 "1" match_ eq_refl eq_refl)). }
  split.
  { intros match_.
    etrans; [exact (parseDollars_run_and_token 0 "&" match_ eq_refl)|].
    by rewrite dollar_callback_odd_whole_match. }
  repeat split.
Qed.

(** ** Replacement in an open document *)

Lemma byStartDescending_total (x y : Match) :
  cmpLe byStartDescending x y \/ cmpLe byStartDescending y x.
Proof.
  unfold cmpLe, byStartDescending, cmpPos.
  destruct (Z.eqb_spec (line (start y) - line (start x)) 0);
    destruct (Z.eqb_spec (line (start x) - line (start y)) 0); lia.
Qed.

Lemma byStartDescending_trans (x y z : Match) :
  cmpLe byStartDescending x y -> cmpLe byStartDescending y z ->
  cmpLe byStartDescending x z.
Proof.
  unfold cmpLe, byStartDescending, cmpPos.
  destruct (Z.eqb_spec (line (start y) - line (start x)) 0);
    destruct (Z.eqb_spec (line (start z) - line (start y)) 0);
    destruct (Z.eqb_spec (line (start z) - line (start x)) 0); lia.
Qed.

(** The edits of the checked matches, appended to the batch in progress. *)
Lemma replace_checked_in_batch (replaceText : string) (isRegexp : bool)
    (l : list Match) (d : Document) (es : list Edit) :
  batch d = Some es ->
  fold_left
    (fun d m =>
       if isChecked m
       then replaceRange (replacementFor replaceText isRegexp m)
                         (start m) (end_ m) d
       else d) l d
  = {| transactions := transactions d;
       batch := Some (es ++ map (editFor replaceText isRegexp)
                                (List.filter isChecked l)) |}.
Proof.
  revert d es. induction l as [|m r IH]; intros d es Hb; simpl.
  - rewrite app_nil_r. destruct d; simpl in *; congruence.
  - destruct (isChecked m) eqn:Hc.
    + erewrite IH; [|unfold replaceRange; rewrite Hb; reflexivity].
      simpl. unfold replaceRange. rewrite Hb. simpl.
      by rewrite <- app_assoc.
    + by apply IH.
Qed.

(** C5: [_doReplaceInDocument] always returns a resolved promise, having
    sorted the matches of the file by start position, last one first.  On a
    document with no batch in progress it then makes one [replaceRange] call
    per checked match, in that order, over the range of the match from
    [start] to [end]; the text of the call is [replaceText] as it stands
    for a plain query and, for a regular-expression query,
    [parseDollars replaceText match.result], the replace text with its
    dollar expressions expanded from the groups of that match; the calls
    form exactly one new batch transaction, and unchecked matches give no
    call. *)
Theorem doReplaceInDocument_checked_matches_in_one_batch
    (doc : Document) (matchInfo : MatchInfo) (replaceText : string)
    (isRegexp : bool) :
  let '(doc', matchInfo', p) :=
    _doReplaceInDocument doc matchInfo replaceText isRegexp in
  p = resolved tt /\
  Permutation (matches matchInfo') (matches matchInfo) /\
  StronglySorted (cmpLe byStartDescending) (matches matchInfo') /\
  collapsed matchInfo' = collapsed matchInfo /\
  timestamp matchInfo' = timestamp matchInfo /\
  (batch doc = None ->
   transactions doc' =
     transactions doc ++
       [map (fun m =>
               ReplaceRange
                 (if isRegexp then parseDollars replaceText (result m)
                  else replaceText)
                 (start m) (end_ m))
            (List.filter isChecked (matches matchInfo'))] /\
   batch doc' = None).
Proof.
  unfold _doReplaceInDocument. simpl.
  split; [reflexivity|].
  split; [apply sort_Permutation|].
  split.
  { apply sort_StronglySorted;
      [apply byStartDescending_total|apply byStartDescending_trans]. }
  split; [reflexivity|]. split; [reflexivity|].
  intros Hb. unfold batchOperation. rewrite Hb. simpl.
  erewrite replace_checked_in_batch by reflexivity.
  simpl. split; reflexivity.
Qed.

(** The sample matches, stored in document order with an unchecked one
    between them, replaced by the template "[$&]": for a regular-expression
    query the matched text is put between the brackets, the last match
    first; for a plain query the template is inserted as it stands. *)
Lemma doReplaceInDocument_checked_matches_in_one_batch_witness :
  batch newDocument = None /\
  transactions
    (_doReplaceInDocument newDocument
       (Sample.info [Sample.foo; Sample.uncheck Sample.foo; Sample.bar])
       "[$&]" true).1.1
  = [[ReplaceRange "[bar]" (Sample.pos 0 10) (Sample.pos 0 13);
      ReplaceRange "[foo]" (Sample.pos 0 5) (Sample.pos 0 8)]] /\
  transactions
    (_doReplaceInDocument newDocument
       (Sample.info [Sample.foo; Sample.uncheck Sample.foo; Sample.bar])
       "[$&]" false).1.1
  = [[ReplaceRange "[$&]" (Sample.pos 0 10) (Sample.pos 0 13);
      ReplaceRange "[$&]" (Sample.pos 0 5) (Sample.pos 0 8)]].
Proof.
  split; [reflexivity|].
  pose proof
    (doReplaceInDocument_checked_matches_in_one_batch newDocument
       (Sample.info [Sample.foo; Sample.uncheck Sample.foo; Sample.bar])
       "[$&]" true) as Hregexp.
  pose proof
    (doReplaceInDocument_checked_matches_in_one_batch newDocument
       (Sample.info [Sample.foo; Sample.uncheck Sample.foo; Sample.bar])
       "[$&]" false) as Hplain.
  destruct Hregexp as (_ & _ & _ & _ & _ & Hregexp).
  destruct Hplain as (_ & _ & _ & _ & _ & Hplain).
  destruct (Hregexp eq_refl) as [Hregexp' _].
  destruct (Hplain eq_refl) as [Hplain' _].
  split; [exact Hregexp'|exact Hplain'].
Defined.

Lemma getProperty_setProperty {V} (o : list (string * V)) (k : string)
    (v : V) :
  getProperty (setProperty o k v) k = Some v.
Proof.
  induction o as [|[k' v'] r IH]; simpl.
  - by rewrite decide_True.
  - destruct (decide (k' = k)) as [->|Hne]; simpl.
    + by rewrite decide_True.
    + by rewrite decide_False.
Qed.

Lemma getProperty_setProperty_ne {V} (o : list (string * V))
    (k k' : string) (v : V) :
  k <> k' -> getProperty (setProperty o k v) k' = getProperty o k'.
Proof.
  intros Hne. induction o as [|[k0 v0] r IH]; simpl.
  - by rewrite decide_False.
  - destruct (decide (k0 = k)) as [->|Hne0]; simpl.
    + by rewrite !decide_False.
    + destruct (decide (k0 = k')); [reflexivity|exact IH].
Qed.

Lemma keys_setProperty_in {V} (o : list (string * V)) (k : string) (v : V) :
  In k (keys o) -> keys (setProperty o k v) = keys o.
Proof.
  induction o as [|[k' v'] r IH]; simpl; [tauto|].
  intros Hin. destruct (decide (k' = k)) as [->|Hne]; simpl; [reflexivity|].
  f_equal. apply IH. destruct Hin; [congruence|assumption].
Qed.

(** C9: when the file of a result is open in a document, the operation
    started for it leaves, in the results object, the match info of that
    file with its [matches] array sorted in place: the stored array is the
    same matches permuted into descending order of start position (the
    other fields of the match info are kept). *)
Theorem replaceItem_sorts_stored_matches_in_place
    (sniffLineEndings : string -> option LineEndings)
    (replaceText : string) (options : option Options) (fullPath : string)
    (matchInfo : MatchInfo) (results : list (string * MatchInfo))
    (w : World) (doc : Document) :
  openDocuments w !! fullPath = Some doc ->
  exists matchInfo',
    getProperty (replaceItem sniffLineEndings replaceText options
           (fullPath, matchInfo) (results, w)).1.1 fullPath
      = Some matchInfo' /\
    matches matchInfo' = sort byStartDescending (matches matchInfo) /\
    Permutation (matches matchInfo') (matches matchInfo) /\
    StronglySorted (cmpLe byStartDescending) (matches matchInfo') /\
    collapsed matchInfo' = collapsed matchInfo /\
    timestamp matchInfo' = timestamp matchInfo.
Proof.
  intros Hdoc.
  unfold replaceItem, _doReplaceInOneFile, getOpenDocumentForPath.
  rewrite Hdoc. unfold replaceInOpenDocument, _doReplaceInDocument. simpl.
  eexists. split; [apply getProperty_setProperty|]. simpl.
  split; [reflexivity|].
  split; [apply sort_Permutation|].
  split; [|split; reflexivity].
  apply sort_StronglySorted;
    [apply byStartDescending_total|apply byStartDescending_trans].
Qed.

Lemma replaceItem_sorts_stored_matches_in_place_witness :
  openDocuments (Sample.world [] [("/a.js", newDocument)]) !! "/a.js"
    = Some newDocument /\
  exists matchInfo',
    getProperty (replaceItem (fun _ => None) "X" None
           ("/a.js", Sample.info [Sample.foo; Sample.bar])
           ([("/a.js", Sample.info [Sample.foo; Sample.bar])],
            Sample.world [] [("/a.js", newDocument)])).1.1 "/a.js"
      = Some matchInfo' /\
    matches matchInfo' = [Sample.bar; Sample.foo].
Proof.
  split; [reflexivity|].
  destruct
    (replaceItem_sorts_stored_matches_in_place (fun _ => None) "X" None
       "/a.js" (Sample.info [Sample.foo; Sample.bar])
       [("/a.js", Sample.info [Sample.foo; Sample.bar])]
       (Sample.world [] [("/a.js", newDocument)]) newDocument eq_refl)
    as (mi & Hget & Hsort & _).
  exists mi. split; [exact Hget|exact Hsort].
Defined.

(** ** Replacement on disk *)

(** C1: when the file exists and its modification time is not the timestamp
    of the match info, [_doReplaceOnDisk] is rejected with
    [ERROR_FILE_CHANGED] and leaves the world as it was: nothing is
    written. *)
Theorem doReplaceOnDisk_changed_file_is_rejected_unwritten
    (sniffLineEndings : string -> option LineEndings) (fullPath : string)
    (matchInfo : MatchInfo) (replaceText : string) (isRegexp : bool)
    (w : World) (f : File) :
  disk w !! fullPath = Some f ->
  mtime f <> timestamp matchInfo ->
  _doReplaceOnDisk sniffLineEndings fullPath matchInfo replaceText isRegexp w
  = (w, rejected ERROR_FILE_CHANGED).
Proof.
  intros Hf Hne. unfold _doReplaceOnDisk, getDocumentText. rewrite Hf.
  destruct (Z.eqb_spec (mtime f) (timestamp matchInfo)); [contradiction|].
  reflexivity.
Qed.

Lemma doReplaceOnDisk_changed_file_is_rejected_unwritten_witness :
  let w := Sample.world [("/a.js", Sample.file Sample.contents 2000)] [] in
  disk w !! "/a.js" = Some (Sample.file Sample.contents 2000) /\
  mtime (Sample.file Sample.contents 2000)
    <> timestamp (Sample.info [Sample.foo]) /\
  _doReplaceOnDisk (fun _ => None) "/a.js" (Sample.info [Sample.foo]) "X"
    false w
  = (w, rejected ERROR_FILE_CHANGED).
Proof.
  assert (H : mtime (Sample.file Sample.contents 2000)
              <> timestamp (Sample.info [Sample.foo])) by (simpl; lia).
  split; [reflexivity|]. split; [exact H|].
  exact (doReplaceOnDisk_changed_file_is_rejected_unwritten (fun _ => None)
           "/a.js" (Sample.info [Sample.foo]) "X" false
           (Sample.world [("/a.js", Sample.file Sample.contents 2000)] [])
           (Sample.file Sample.contents 2000) eq_refl H).
Defined.

(** C2, as stated, fails: [_doReplaceOnDisk] does not sort.  With the two
    sample matches stored last one first, the text it builds differs from
    the text built from the same matches stored in ascending order, and from
    the text the sort-then-walk algorithm builds. *)
Lemma newContents_depends_on_stored_order :
  newContents Sample.contents None (Sample.info [Sample.bar; Sample.foo])
    "X" false = "01234foo89XX89bar" /\
  newContentsOfSorted Sample.contents None
    (Sample.info [Sample.bar; Sample.foo]) "X" false = "01234X89X" /\
  newContents Sample.contents None (Sample.info [Sample.bar; Sample.foo])
    "X" false
  <> newContents Sample.contents None (Sample.info [Sample.foo; Sample.bar])
       "X" false /\
  newContents Sample.contents None (Sample.info [Sample.bar; Sample.foo])
    "X" false
  <> newContentsOfSorted Sample.contents None
       (Sample.info [Sample.bar; Sample.foo]) "X" false.
Proof. repeat split; vm_compute; (reflexivity || discriminate). Qed.

(** The loop of [newContents], from any state of [result] and [lastIndex],
    joins to the walk over the stored matches. *)
Lemma pushReplacement_walk (contents replaceText : string) (isRegexp : bool)
    (ms : list Match) :
  forall (result : list string) (lastIndex : Z),
    join
      ((fold_left (pushReplacement contents replaceText isRegexp) ms
          (result, lastIndex)).1
       ++ [slice contents
             (fold_left (pushReplacement contents replaceText isRegexp) ms
                (result, lastIndex)).2 None])
    = join result +:+ walkFrom contents replaceText isRegexp lastIndex ms.
Proof.
  induction ms as [|m rest IH]; intros result lastIndex.
  - cbn [fold_left fst snd walkFrom]. rewrite join_app. cbn [join].
    by rewrite append_empty_r.
  - cbn [fold_left walkFrom]. unfold pushReplacement at 2 4.
    destruct (isChecked m); [|apply IH].
    rewrite IH, join_app. cbn [join]. unfold replacementFor.
    by rewrite append_empty_r, !append_assoc.
Qed.

Lemma newContents_walk (contents : string)
    (lineEndings : option LineEndings) (matchInfo : MatchInfo)
    (replaceText : string) (isRegexp : bool) :
  newContents contents lineEndings matchInfo replaceText isRegexp
  = encodeLineEndings lineEndings
      (walkFrom contents replaceText isRegexp 0 (matches matchInfo)).
Proof.
  pose proof (pushReplacement_walk contents replaceText isRegexp
                (matches matchInfo) [] 0) as Hwalk.
  cbn [join] in Hwalk. rewrite append_empty_l in Hwalk.
  unfold newContents.
  destruct (fold_left (pushReplacement contents replaceText isRegexp)
              (matches matchInfo) ([], 0)) as [result lastIndex].
  cbn [fst snd] in Hwalk. rewrite Hwalk.
  by destruct lineEndings as [[]|].
Qed.

(** C2, amended: [_doReplaceOnDisk] does not sort.  It walks the matches in
    the order in which they are stored, with [lastIndex] at 0 to begin
    with: for each checked match it appends the text of the file between
    [lastIndex] and the [startOffset] of the match, then the replacement
    (the replace text, expanded by [parseDollars] for a regular-expression
    query), and moves [lastIndex] to the [endOffset] of the match; an
    unchecked match is passed over; at the end it appends the text from
    [lastIndex] on, and rewrites every LF as CR LF for a CRLF file.  So for
    two checked matches the text is: the file up to the first stored match,
    its replacement, the file between the end of the first stored match and
    the start of the second, the replacement of the second, and the file
    behind the second, whichever of the two lies first in the file.  When
    the stored matches are already in ascending order of [startOffset], the
    text is that of the sort-then-walk algorithm. *)
Theorem newContents_of_matches_stored_ascending
    (contents : string) (lineEndings : option LineEndings)
    (matchInfo : MatchInfo) (replaceText : string) (isRegexp : bool) :
  newContents contents lineEndings matchInfo replaceText isRegexp
  = encodeLineEndings lineEndings
      (walkFrom contents replaceText isRegexp 0 (matches matchInfo)) /\
  (forall first second : Match,
     matches matchInfo = [first; second] ->
     isChecked first = true -> isChecked second = true ->
     newContents contents lineEndings matchInfo replaceText isRegexp
     = encodeLineEndings lineEndings
         (slice contents 0 (Some (startOffset first))
          +:+ (if isRegexp then parseDollars replaceText (result first)
               else replaceText)
          +:+ slice contents (endOffset first) (Some (startOffset second))
          +:+ (if isRegexp then parseDollars replaceText (result second)
               else replaceText)
          +:+ slice contents (endOffset second) None)) /\
  (forall m : Match,
     matches matchInfo = [m] -> isChecked m = false ->
     newContents contents lineEndings matchInfo replaceText isRegexp
     = encodeLineEndings lineEndings (slice contents 0 None)) /\
  (Sorted (cmpLe byStartOffset) (matches matchInfo) ->
   newContents contents lineEndings matchInfo replaceText isRegexp
   = newContentsOfSorted contents lineEndings matchInfo replaceText
       isRegexp).
Proof.
  split; [apply newContents_walk|].
  split.
  { intros first second Hms Hfirst Hsecond.
    rewrite newContents_walk, Hms. cbn [walkFrom].
    by rewrite Hfirst, Hsecond. }
  split.
  { intros m Hms Hm. rewrite newContents_walk, Hms. cbn [walkFrom].
    by rewrite Hm. }
  intros Hs. unfold newContentsOfSorted.
  rewrite (sort_Sorted_id _ _ Hs). by destruct matchInfo.
Qed.

(** The sample matches replaced by the template "[$&]" of a
    regular-expression query: stored in ascending order the text is that of
    the sort-then-walk algorithm; stored last one first, the walk copies the
    file up to "bar", finds nothing to copy from the end of "bar" back to
    the start of "foo", and copies the file from the end of "foo" on, a
    part of it for the second time. *)
Lemma newContents_of_matches_stored_ascending_witness :
  Sorted (cmpLe byStartOffset) (matches (Sample.info [Sample.foo; Sample.bar]))
  /\
  newContents Sample.contents None (Sample.info [Sample.foo; Sample.bar])
    "[$&]" true
  = newContentsOfSorted Sample.contents None
      (Sample.info [Sample.foo; Sample.bar]) "[$&]" true /\
  newContents Sample.contents None (Sample.info [Sample.foo; Sample.bar])
    "[$&]" true
  = "01234[foo]89[bar]" /\
  newContents Sample.contents None (Sample.info [Sample.bar; Sample.foo])
    "[$&]" true
  = "01234foo89[bar][foo]89bar".
Proof.
  assert (H : Sorted (cmpLe byStartOffset)
                (matches (Sample.info [Sample.foo; Sample.bar]))).
  { repeat constructor. unfold cmpLe, byStartOffset. simpl. lia. }
  split; [exact H|].
  destruct (newContents_of_matches_stored_ascending Sample.contents None
              (Sample.info [Sample.foo; Sample.bar]) "[$&]" true)
    as (_ & Hascending & _ & Hsorted).
  destruct (newContents_of_matches_stored_ascending Sample.contents None
              (Sample.info [Sample.bar; Sample.foo]) "[$&]" true)
    as (_ & Hdescending & _ & _).
  split; [exact (Hsorted H)|].
  split.
  - exact (Hascending Sample.foo Sample.bar eq_refl eq_refl eq_refl).
  - exact (Hdescending Sample.bar Sample.foo eq_refl eq_refl eq_refl).
Defined.

Lemma pushReplacement_unchecked (contents replaceText : string)
    (isRegexp : bool) (l : list Match) (acc : list string * Z) :
  Forall (fun m => isChecked m = false) l ->
  fold_left (pushReplacement contents replaceText isRegexp) l acc = acc.
Proof.
  intros Hl. revert acc.
  induction Hl as [|m r Hm _ IH]; intros [result lastIndex]; simpl;
    [reflexivity|].
  rewrite Hm. apply IH.
Qed.

Lemma newContents_unchecked (contents : string)
    (lineEndings : option LineEndings) (matchInfo : MatchInfo)
    (replaceText : string) (isRegexp : bool) :
  Forall (fun m => isChecked m = false) (matches matchInfo) ->
  newContents contents lineEndings matchInfo replaceText isRegexp
  = encodeLineEndings lineEndings contents.
Proof.
  intros Hl. unfold newContents.
  rewrite pushReplacement_unchecked by exact Hl.
  simpl. rewrite slice_from_start, append_empty_r.
  by destruct lineEndings as [[]|].
Qed.

(** C7, as stated, fails.  A file with mixed line endings and no checked
    match is rewritten with other bytes, whatever convention is detected in
    it; and for a CR LF file the text handed to the write is not the text
    the read delivered. *)
Lemma doReplaceOnDisk_unchecked_rewrites_line_endings :
  let matchInfo := Sample.info [Sample.uncheck Sample.foo] in
  let w := Sample.world [("/a.txt", Sample.file Sample.mixedBytes 1000)] [] in
  bytesAt (_doReplaceOnDisk (fun _ => Some LINE_ENDINGS_CRLF) "/a.txt"
             matchInfo "X" false w).1 "/a.txt"
    <> bytesAt w "/a.txt" /\
  bytesAt (_doReplaceOnDisk (fun _ => Some LINE_ENDINGS_LF) "/a.txt"
             matchInfo "X" false w).1 "/a.txt"
    <> bytesAt w "/a.txt" /\
  bytesAt (_doReplaceOnDisk (fun _ => None) "/a.txt"
             matchInfo "X" false w).1 "/a.txt"
    <> bytesAt w "/a.txt" /\
  newContents (normalizeText Sample.crlfBytes) (Some LINE_ENDINGS_CRLF)
    matchInfo "X" false
    <> normalizeText Sample.crlfBytes.
Proof. repeat split; vm_compute; discriminate. Qed.

Lemma normalizeText_without_CRLF (s : string) :
  hasNoCRLF s = true -> normalizeText s = s.
Proof.
  unfold normalizeText, replace.
  induction s as [|c r IH]; [reflexivity|].
  cbn [hasNoCRLF replace_from].
  destruct (exec_crlf (String c r)) as [[n u]|]; [discriminate|].
  intros H. by rewrite IH.
Qed.

Lemma toCRLF_cons (c : ascii) (r : string) :
  toCRLF (String c r)
  = if Ascii.eqb c LF then String CR (String LF (toCRLF r))
    else String c (toCRLF r).
Proof.
  unfold toCRLF, replace. cbn [replace_from exec_lf].
  destruct (Ascii.eqb c LF); reflexivity.
Qed.

Lemma normalizeText_CRLF (r : string) :
  normalizeText (String CR (String LF r)) = String LF (normalizeText r).
Proof. reflexivity. Qed.

Lemma normalizeText_other (c : ascii) (r : string) :
  exec_crlf (String c r) = None ->
  normalizeText (String c r) = String c (normalizeText r).
Proof.
  intros H. unfold normalizeText, replace. cbn [replace_from].
  by rewrite H.
Qed.

Lemma everyLFAfterCR_weaken (s : string) :
  everyLFAfterCR false s = true -> everyLFAfterCR true s = true.
Proof.
  destruct s as [|c r]; [reflexivity|]. simpl.
  destruct (Ascii.eqb c LF); [discriminate|tauto].
Qed.

Lemma toCRLF_normalizeText_of_CRLF_bytes (s : string) :
  everyLFAfterCR false s = true -> toCRLF (normalizeText s) = s.
Proof.
  remember (String.length s) as n eqn:Hn. revert s Hn.
  induction n as [n IH] using lt_wf_ind. intros s Hn Hs.
  destruct s as [|c r]; [reflexivity|].
  simpl in Hs. apply andb_true_iff in Hs as [Hc Hr].
  destruct (Ascii.eqb_spec c LF) as [->|HcLF]; [discriminate|].
  destruct (Ascii.eqb_spec c CR) as [->|HcCR].
  - destruct r as [|d r'].
    + reflexivity.
    + destruct (Ascii.eqb_spec d LF) as [->|HdLF].
      * rewrite normalizeText_CRLF, toCRLF_cons. simpl Ascii.eqb.
        simpl in Hr. f_equal. f_equal.
        apply (IH (String.length r')); [simpl in Hn; lia|reflexivity|].
        exact Hr.
      * rewrite normalizeText_other.
        2:{ simpl. destruct (Ascii.eqb_spec d LF); [contradiction|].
            reflexivity. }
        rewrite toCRLF_cons. simpl Ascii.eqb. f_equal.
        apply (IH (String.length (String d r')));
          [simpl in Hn |- *; lia|reflexivity|].
        simpl in Hr |- *.
        destruct (Ascii.eqb_spec d LF); [contradiction|exact Hr].
  - rewrite normalizeText_other.
    2:{ simpl. destruct r; [reflexivity|].
        destruct (Ascii.eqb_spec c CR); [contradiction|reflexivity]. }
    rewrite toCRLF_cons.
    destruct (Ascii.eqb_spec c LF); [contradiction|]. f_equal.
    apply (IH (String.length r)); [simpl in Hn; lia|reflexivity|exact Hr].
Qed.

(** C7, amended: for a file that is unchanged since the search, writable,
    and whose matches are all unchecked, [_doReplaceOnDisk] is resolved; the
    walk replaces no segment, so the text it builds is the content that was
    read; the bytes written are that content, with every LF rewritten as
    CR LF when the convention detected in the file is CRLF.  The bytes of
    the file are then the original ones when the file holds no CR LF pair
    and is not detected as CRLF, or when every LF of the file follows a CR
    and it is detected as CRLF. *)
Theorem doReplaceOnDisk_without_checked_match
    (sniffLineEndings : string -> option LineEndings) (fullPath : string)
    (matchInfo : MatchInfo) (replaceText : string) (isRegexp : bool)
    (w : World) (f : File) :
  disk w !! fullPath = Some f ->
  mtime f = timestamp matchInfo ->
  readOnly f = false ->
  Forall (fun m => isChecked m = false) (matches matchInfo) ->
  let contents := normalizeText (text f) in
  let lineEndings := sniffLineEndings (text f) in
  let after :=
    _doReplaceOnDisk sniffLineEndings fullPath matchInfo replaceText
      isRegexp w in
  after.2 = resolved tt /\
  newContents contents None matchInfo replaceText isRegexp = contents /\
  bytesAt after.1 fullPath = Some (encodeLineEndings lineEndings contents) /\
  (hasNoCRLF (text f) = true -> lineEndings <> Some LINE_ENDINGS_CRLF ->
   bytesAt after.1 fullPath = bytesAt w fullPath) /\
  (everyLFAfterCR false (text f) = true ->
   lineEndings = Some LINE_ENDINGS_CRLF ->
   bytesAt after.1 fullPath = bytesAt w fullPath).
Proof.
  intros Hf Htime Hro Hun contents lineEndings after.
  assert (Hafter :
    after = (withDisk w
               (<[fullPath :=
                    {| text := encodeLineEndings lineEndings contents;
                       mtime := mtime f + 1;
                       readOnly := readOnly f |}]> (disk w)),
             resolved tt)).
  { subst after. unfold _doReplaceOnDisk, getDocumentText. rewrite Hf.
    rewrite (proj2 (Z.eqb_eq _ _) Htime). simpl.
    rewrite newContents_unchecked by exact Hun.
    unfold write. by rewrite Hf, Hro. }
  assert (Hbytes :
    bytesAt after.1 fullPath
    = Some (encodeLineEndings lineEndings contents)).
  { rewrite Hafter. unfold bytesAt. simpl. by rewrite lookup_insert_eq. }
  split; [by rewrite Hafter|].
  split; [by rewrite newContents_unchecked|].
  split; [exact Hbytes|].
  split.
  - intros Hlf Hle. rewrite Hbytes. unfold bytesAt. rewrite Hf. simpl.
    f_equal. subst contents. rewrite normalizeText_without_CRLF by exact Hlf.
    destruct lineEndings as [[]|]; [contradiction|reflexivity..].
  - intros Hcrlf Hle. rewrite Hbytes, Hle. unfold bytesAt. rewrite Hf. simpl.
    f_equal. by apply toCRLF_normalizeText_of_CRLF_bytes.
Qed.

Lemma doReplaceOnDisk_without_checked_match_witness :
  let matchInfo := Sample.info [Sample.uncheck Sample.foo] in
  let f := Sample.file Sample.contents 1000 in
  let w := Sample.world [("/a.js", f)] [] in
  disk w !! "/a.js" = Some f /\
  mtime f = timestamp matchInfo /\
  readOnly f = false /\
  Forall (fun m => isChecked m = false) (matches matchInfo) /\
  bytesAt (_doReplaceOnDisk (fun _ => None) "/a.js" matchInfo "X" false w).1
    "/a.js"
  = Some Sample.contents.
Proof.
  assert (Hun : Forall (fun m => isChecked m = false)
                  (matches (Sample.info [Sample.uncheck Sample.foo])))
    by (repeat constructor).
  cbv zeta. do 3 (split; [reflexivity|]). split; [exact Hun|].
  pose proof
    (doReplaceOnDisk_without_checked_match (fun _ => None) "/a.js"
       (Sample.info [Sample.uncheck Sample.foo]) "X" false
       (Sample.world [("/a.js", Sample.file Sample.contents 1000)] [])
       (Sample.file Sample.contents 1000) eq_refl eq_refl eq_refl Hun) as H.
  destruct H as (_ & _ & H & _). exact H.
Defined.

(** ** The batch *)

Section Batch.

Variable sniffLineEndings : string -> option LineEndings.
Variable comparePaths : string -> string -> Z.
Variable replaceText : string.
Variable options : option Options.

(** The operation of one file, with the parameters of the batch. *)
Local Abbreviation oneFile :=
  (_doReplaceInOneFile sniffLineEndings).

Lemma agreeAt_refl (fullPath : string) (w : World) : agreeAt fullPath w w.
Proof. by split. Qed.

Lemma agreeAt_sym (fullPath : string) (w1 w2 : World) :
  agreeAt fullPath w1 w2 -> agreeAt fullPath w2 w1.
Proof. intros [? ?]. by split. Qed.

Lemma agreeAt_trans (fullPath : string) (w1 w2 w3 : World) :
  agreeAt fullPath w1 w2 -> agreeAt fullPath w2 w3 -> agreeAt fullPath w1 w3.
Proof. intros [? ?] [? ?]. split; congruence. Qed.

(** The operation of one file leaves the files and documents of the other
    paths alone. *)
Lemma oneFile_frame (fullPath other : string) (matchInfo : MatchInfo)
    (w : World) :
  fullPath <> other ->
  agreeAt other (oneFile fullPath matchInfo replaceText options w).1.1 w.
Proof.
  intros Hne.
  unfold _doReplaceInOneFile, getOpenDocumentForPath, getDocumentForPath,
    replaceInOpenDocument, _doReplaceInDocument, _doReplaceOnDisk,
    getDocumentText, write, agreeAt.
  destruct (openDocuments w !! fullPath) as [doc|] eqn:Hdoc; simpl.
  - split; [reflexivity|by apply lookup_insert_ne].
  - destruct (forceFilesOpen (default noOptions options)).
    + destruct (disk w !! fullPath) as [f|]; simpl;
        [|by split].
      split; [reflexivity|].
      rewrite lookup_insert_ne by exact Hne. by apply lookup_insert_ne.
    + destruct (disk w !! fullPath) as [f|]; simpl; [|by split].
      destruct (mtime f =? timestamp matchInfo); simpl; [|by split].
      destruct (readOnly f); simpl; [by split|].
      split; [by apply lookup_insert_ne|reflexivity].
Qed.

(** What the operation of one file does depends on the file and on the
    document at its path only. *)
Lemma oneFile_local (fullPath : string) (matchInfo : MatchInfo)
    (w1 w2 : World) :
  agreeAt fullPath w1 w2 ->
  (oneFile fullPath matchInfo replaceText options w1).2
  = (oneFile fullPath matchInfo replaceText options w2).2 /\
  (oneFile fullPath matchInfo replaceText options w1).1.2
  = (oneFile fullPath matchInfo replaceText options w2).1.2 /\
  agreeAt fullPath
    (oneFile fullPath matchInfo replaceText options w1).1.1
    (oneFile fullPath matchInfo replaceText options w2).1.1.
Proof.
  intros [Hdisk Hdocs].
  unfold _doReplaceInOneFile, getOpenDocumentForPath, getDocumentForPath,
    replaceInOpenDocument, _doReplaceInDocument, _doReplaceOnDisk,
    getDocumentText, write, agreeAt.
  rewrite Hdocs.
  destruct (openDocuments w2 !! fullPath) as [doc|] eqn:Hdoc; simpl.
  - split; [reflexivity|]. split; [reflexivity|].
    split; [exact Hdisk|]. by rewrite !lookup_insert_eq.
  - destruct (forceFilesOpen (default noOptions options)).
    + rewrite Hdisk.
      destruct (disk w2 !! fullPath) as [f|] eqn:Hf; simpl.
      * split; [reflexivity|]. split; [reflexivity|].
        split; [congruence|]. by rewrite !lookup_insert_eq.
      * repeat split; congruence.
    + rewrite Hdisk.
      destruct (disk w2 !! fullPath) as [f|] eqn:Hf; simpl.
      * destruct (mtime f =? timestamp matchInfo); simpl.
        -- destruct (readOnly f); simpl; [repeat split; congruence|].
           split; [reflexivity|]. split; [reflexivity|].
           split; [by rewrite !lookup_insert_eq|congruence].
        -- repeat split; congruence.
      * repeat split; congruence.
Qed.

Local Abbreviation run :=
  (doInParallel_aggregateErrors (I := string * MatchInfo) (S := BatchState)).

Lemma replaceItem_eq (entry : string * MatchInfo)
    (results : list (string * MatchInfo)) (w : World) :
  replaceItem sniffLineEndings replaceText options entry (results, w)
  = ((setProperty results entry.1
        (oneFile entry.1 entry.2 replaceText options w).1.2,
      (oneFile entry.1 entry.2 replaceText options w).1.1),
     (oneFile entry.1 entry.2 replaceText options w).2).
Proof.
  destruct entry as [fullPath matchInfo]. unfold replaceItem. simpl.
  by destruct (oneFile fullPath matchInfo replaceText options w)
    as [[w' matchInfo'] p].
Qed.

Lemma run_cons (entry : string * MatchInfo)
    (rest : list (string * MatchInfo)) (name : string * MatchInfo -> string)
    (op : string * MatchInfo -> BatchState -> BatchState * Promise unit)
    (st : BatchState) :
  run (entry :: rest) name op st
  = ((run rest name op (op entry st).1).1,
     match (op entry st).2 with
     | resolved _ => (run rest name op (op entry st).1).2
     | rejected err =>
         {| item := name entry; error := err |}
           :: (run rest name op (op entry st).1).2
     end).
Proof.
  simpl. destruct (op entry st) as [st1 p]. simpl.
  destruct (run rest name op st1) as [st2 errors].
  by destruct p.
Qed.

(** The batch as a whole: the errors are those of the operations, each as it
    would go on the starting world, and the file and document of every path
    end as its own operation leaves them. *)
Lemma run_spec (items : list (string * MatchInfo))
    (results : list (string * MatchInfo)) (w : World) :
  NoDup (keys items) ->
  (run items fst (replaceItem sniffLineEndings replaceText options)
     (results, w)).2
  = omap (fun entry =>
            failureOf entry
              (oneFile entry.1 entry.2 replaceText options w).2)
         items /\
  (forall entry, entry ∈ items ->
     agreeAt entry.1
       (run items fst (replaceItem sniffLineEndings replaceText options)
          (results, w)).1.2
       (oneFile entry.1 entry.2 replaceText options w).1.1) /\
  (forall other, other ∉ keys items ->
     agreeAt other
       (run items fst (replaceItem sniffLineEndings replaceText options)
          (results, w)).1.2
       w).
Proof.
  revert results w.
  induction items as [|[fullPath matchInfo] rest IH]; intros results w Hnd.
  { simpl. split; [reflexivity|]. split.
    - intros entry Hin. by apply elem_of_nil in Hin.
    - intros other _. apply agreeAt_refl. }
  simpl in Hnd. apply NoDup_cons in Hnd as [Hfresh Hnd].
  rewrite run_cons, replaceItem_eq. csimpl.
  set (w1 := (oneFile fullPath matchInfo replaceText options w).1.1).
  set (results1 :=
         setProperty results fullPath
           (oneFile fullPath matchInfo replaceText options w).1.2).
  destruct (IH results1 w1 Hnd) as (Herrors & Hin & Hout).
  assert (Hsame : forall entry, entry ∈ rest -> agreeAt entry.1 w1 w).
  { intros entry Hentry. apply oneFile_frame. intros ->.
    apply Hfresh. unfold keys. apply list_elem_of_fmap. by exists entry. }
  assert (Herrors' :
    omap (fun entry =>
            failureOf entry
              (oneFile entry.1 entry.2 replaceText options w1).2) rest
    = omap (fun entry =>
              failureOf entry
                (oneFile entry.1 entry.2 replaceText options w).2) rest).
  { clear -Hsame. induction rest as [|entry rest IH]; [reflexivity|].
    csimpl.
    destruct (oneFile_local entry.1 entry.2 w1 w) as (-> & _).
    { apply Hsame. by left. }
    rewrite IH; [reflexivity|].
    intros e He. apply Hsame. by right. }
  split; [|split].
  - rewrite Herrors, Herrors'.
    by destruct ((oneFile fullPath matchInfo replaceText options w).2).
  - intros entry Hentry. apply elem_of_cons in Hentry as [->|Hentry].
    + simpl. by apply Hout.
    + eapply agreeAt_trans; [by apply Hin|].
      apply oneFile_local. by apply Hsame.
  - intros other Hother. simpl in Hother.
    apply not_elem_of_cons in Hother as [Hne Hother].
    eapply agreeAt_trans; [by apply Hout|].
    apply oneFile_frame. congruence.
Qed.

Lemma selectFirstModified_agreeAt (results : list (string * MatchInfo))
    (w : World) (fullPath : string) :
  agreeAt fullPath (selectFirstModified comparePaths results options w) w.
Proof.
  unfold selectFirstModified, agreeAt. by repeat case_match.
Qed.

Lemma failures_nil_iff (items : list (string * MatchInfo))
    (outcome : string * MatchInfo -> Promise unit) :
  omap (fun entry => failureOf entry (outcome entry)) items = [] <->
  forall entry, entry ∈ items -> outcome entry = resolved tt.
Proof.
  induction items as [|entry rest IH]; csimpl.
  - split; [|reflexivity]. intros _ entry Hin. by apply elem_of_nil in Hin.
  - destruct (outcome entry) as [[]|err] eqn:Hp; csimpl.
    + rewrite IH. split.
      * intros H e He. apply elem_of_cons in He as [->|He]; [exact Hp|].
        by apply H.
      * intros H e He. apply H. by right.
    + split; [discriminate|]. intros H.
      specialize (H entry). rewrite Hp in H. discriminate H. by left.
Qed.

(** The batch is settled with the failures of the operations, and every
    path ends as its own operation leaves it. *)
Lemma performReplacements_outcome
    (results : list (string * MatchInfo)) (w : World) :
  NoDup (keys results) ->
  (performReplacements sniffLineEndings comparePaths results replaceText
     options w).2
  = settle
      (omap (fun entry =>
               failureOf entry
                 (oneFile entry.1 entry.2 replaceText options w).2)
            results) /\
  (forall entry, entry ∈ results ->
     agreeAt entry.1
       (performReplacements sniffLineEndings comparePaths results
          replaceText options w).1.2
       (oneFile entry.1 entry.2 replaceText options w).1.1).
Proof.
  intros Hnd.
  destruct (run_spec results results w Hnd) as (Herrors & Hin & _).
  unfold performReplacements.
  destruct (run results fst
              (replaceItem sniffLineEndings replaceText options)
              (results, w)) as [[results' w'] errors].
  cbn [fst snd] in Herrors, Hin. subst errors.
  destruct (omap (fun entry =>
                    failureOf entry
                      (oneFile entry.1 entry.2 replaceText options w).2)
                 results) as [|failure rest]; cbn [settle fst snd].
  - split; [reflexivity|]. intros entry Hentry.
    eapply agreeAt_trans; [apply selectFirstModified_agreeAt|].
    by apply Hin.
  - split; [reflexivity|exact Hin].
Qed.

(** C6: for a results object with distinct keys, [performReplacements] is
    settled with the failures of the per-file operations, each taken as it
    goes on the starting world: it is resolved exactly when every operation
    is resolved, and is otherwise rejected with the list that holds one
    [{item, error}] entry for each operation that was rejected and none for
    the others; and the file and the document of every key end as the
    operation of that key leaves them, whatever became of the others. *)
Theorem performReplacements_reports_exactly_the_failed_files
    (results : list (string * MatchInfo)) (w : World) :
  NoDup (keys results) ->
  let alone := fun entry : string * MatchInfo =>
    oneFile entry.1 entry.2 replaceText options w in
  let failures :=
    omap (fun entry => failureOf entry (alone entry).2) results in
  let r :=
    performReplacements sniffLineEndings comparePaths results replaceText
      options w in
  r.2 = settle failures /\
  (r.2 = batchResolved <->
   forall entry, entry ∈ results -> (alone entry).2 = resolved tt) /\
  (forall entry, entry ∈ results ->
     agreeAt entry.1 r.1.2 (alone entry).1.1).
Proof.
  intros Hnd. cbv zeta.
  destruct (performReplacements_outcome results w Hnd) as (Hsettled & Hin).
  pose proof (failures_nil_iff results
                (fun e => (oneFile e.1 e.2 replaceText options w).2))
    as Hnil.
  cbv beta in Hnil.
  split; [exact Hsettled|]. split; [|exact Hin].
  rewrite Hsettled.
  destruct (omap (fun entry =>
                    failureOf entry
                      (oneFile entry.1 entry.2 replaceText options w).2)
                 results) as [|failure rest]; cbn [settle].
  - split; [intros _; by apply (proj1 Hnil)|reflexivity].
  - split; [discriminate|]. intros Hall. by apply (proj2 Hnil) in Hall.
Qed.

(** On the disk path, the operation of one file is [_doReplaceOnDisk]. *)
Lemma oneFile_on_disk (fullPath : string) (matchInfo : MatchInfo)
    (w : World) :
  openDocuments w !! fullPath = None ->
  forceFilesOpen (default noOptions options) = false ->
  oneFile fullPath matchInfo replaceText options w
  = ((_doReplaceOnDisk sniffLineEndings fullPath matchInfo replaceText
        (isRegexp (default noOptions options)) w).1,
     matchInfo,
     (_doReplaceOnDisk sniffLineEndings fullPath matchInfo replaceText
        (isRegexp (default noOptions options)) w).2).
Proof.
  intros Hdoc Hforce.
  unfold _doReplaceInOneFile, getOpenDocumentForPath.
  rewrite Hdoc, Hforce.
  by destruct (_doReplaceOnDisk sniffLineEndings fullPath matchInfo
                 replaceText (isRegexp (default noOptions options)) w).
Qed.

Lemma rejected_is_reported (results : list (string * MatchInfo))
    (w : World) (fullPath : string) (matchInfo : MatchInfo) (err : string) :
  NoDup (keys results) ->
  (fullPath, matchInfo) ∈ results ->
  (oneFile fullPath matchInfo replaceText options w).2 = rejected err ->
  exists errors,
    (performReplacements sniffLineEndings comparePaths results replaceText
       options w).2 = batchRejected errors /\
    {| item := fullPath; error := err |} ∈ errors.
Proof.
  intros Hnd Hin Hrej.
  destruct (performReplacements_outcome results w Hnd) as (Hsettled & _).
  rewrite Hsettled.
  assert (Hfail :
    {| item := fullPath; error := err |}
    ∈ omap (fun entry =>
              failureOf entry
                (oneFile entry.1 entry.2 replaceText options w).2)
           results).
  { apply list_elem_of_omap. exists (fullPath, matchInfo).
    split; [exact Hin|]. cbn [fst snd]. by rewrite Hrej. }
  destruct (omap _ results) as [|failure rest] eqn:Hf;
    [by apply elem_of_nil in Hfail|].
  eexists. split; [reflexivity|exact Hfail].
Qed.

(** C10, amended: [performReplacements] starts an operation for every key
    of the results, a file without a checked match included.  When such a
    file is not open in a document and files are not forced open, the file
    is still read and its timestamp checked: a missing file is reported
    with the read error, and a changed file with [ERROR_FILE_CHANGED],
    staying as it is; an unchanged file is written (a read-only one is
    reported with the write error), and the bytes written are the content
    that was read with no replacement applied, every LF rewritten as CR LF
    when the convention detected in the file is CRLF. *)
Theorem performReplacements_file_without_checked_match
    (results : list (string * MatchInfo)) (w : World) (fullPath : string)
    (matchInfo : MatchInfo) :
  NoDup (keys results) ->
  (fullPath, matchInfo) ∈ results ->
  Forall (fun m => isChecked m = false) (matches matchInfo) ->
  openDocuments w !! fullPath = None ->
  forceFilesOpen (default noOptions options) = false ->
  let r :=
    performReplacements sniffLineEndings comparePaths results replaceText
      options w in
  let reported err :=
    exists errors,
      r.2 = batchRejected errors /\
      {| item := fullPath; error := err |} ∈ errors in
  match disk w !! fullPath with
  | None => reported NOT_FOUND
  | Some f =>
      if decide (mtime f = timestamp matchInfo) then
        if readOnly f then
          reported NOT_WRITABLE /\ disk r.1.2 !! fullPath = Some f
        else
          disk r.1.2 !! fullPath
          = Some {| text :=
                      encodeLineEndings (sniffLineEndings (text f))
                        (normalizeText (text f));
                    mtime := mtime f + 1;
                    readOnly := false |}
      else
        reported ERROR_FILE_CHANGED /\ disk r.1.2 !! fullPath = Some f
  end.
Proof.
  intros Hnd Hin Hun Hdoc Hforce. cbv zeta.
  destruct (performReplacements_outcome results w Hnd) as (_ & Hagree).
  specialize (Hagree _ Hin) as [Hdisk _]. cbn [fst snd] in Hdisk.
  pose proof (rejected_is_reported results w fullPath matchInfo) as Hrep.
  rewrite Hdisk. clear Hdisk.
  rewrite oneFile_on_disk in Hrep |- * by assumption.
  cbn [fst snd] in Hrep |- *.
  unfold _doReplaceOnDisk, getDocumentText in Hrep |- *.
  destruct (disk w !! fullPath) as [f|] eqn:Hf.
  2:{ by apply Hrep. }
  destruct (decide (mtime f = timestamp matchInfo)) as [Heq|Hne].
  - rewrite (proj2 (Z.eqb_eq _ _) Heq) in Hrep |- *.
    cbn [negb] in Hrep |- *. unfold write in Hrep |- *.
    rewrite Hf in Hrep |- *.
    destruct (readOnly f) eqn:Hro.
    + split; [by apply Hrep|exact Hf].
    + cbn [fst disk withDisk]. rewrite lookup_insert_eq.
      by rewrite newContents_unchecked.
  - rewrite (proj2 (Z.eqb_neq _ _) Hne) in Hrep |- *.
    cbn [negb] in Hrep |- *. split; [by apply Hrep|exact Hf].
Qed.

End Batch.

Lemma performReplacements_reports_exactly_the_failed_files_witness :
  let r :=
    performReplacements (fun _ => None) Sample.compareLengths
      Sample.threeResults "X" None
      (Sample.world Sample.threeFiles []) in
  NoDup (keys Sample.threeResults) /\
  r.2 = batchRejected [{| item := "/b.js"; error := ERROR_FILE_CHANGED |}] /\
  bytesAt r.1.2 "/a.js" = Some "01234X89X" /\
  bytesAt r.1.2 "/b.js" = Some Sample.contents /\
  bytesAt r.1.2 "/c.js" = Some "01234X89X".
Proof.
  cbv zeta.
  assert (Hnd : NoDup (keys Sample.threeResults))
    by (apply (bool_decide_unpack _); by vm_compute).
  split; [exact Hnd|].
  destruct
    (performReplacements_reports_exactly_the_failed_files (fun _ => None)
       Sample.compareLengths "X" None Sample.threeResults
       (Sample.world Sample.threeFiles []) Hnd)
    as (Hsettled & _ & Hfiles).
  split; [rewrite Hsettled; by vm_compute|].
  unfold bytesAt.
  split; [|split].
  - destruct (Hfiles ("/a.js", Sample.info [Sample.foo; Sample.bar])
                ltac:(unfold Sample.threeResults; set_solver)) as [H _].
    cbn [fst snd] in H. rewrite H. by vm_compute.
  - destruct (Hfiles ("/b.js", Sample.info [Sample.foo; Sample.bar])
                ltac:(unfold Sample.threeResults; set_solver)) as [H _].
    cbn [fst snd] in H. rewrite H. by vm_compute.
  - destruct (Hfiles ("/c.js", Sample.info [Sample.foo; Sample.bar])
                ltac:(unfold Sample.threeResults; set_solver)) as [H _].
    cbn [fst snd] in H. rewrite H. by vm_compute.
Defined.

(** C10, as stated, fails on the content written: a file with mixed line
    endings and no checked match, alone in the batch, is rewritten with
    other bytes, whatever convention is detected in it; and for a CR LF file
    the bytes written are not the content that the read delivered. *)
Lemma performReplacements_unchecked_file_rewrites_line_endings :
  let results := [("/a.txt", Sample.info [Sample.uncheck Sample.foo])] in
  let w := Sample.world [("/a.txt", Sample.file Sample.mixedBytes 1000)] [] in
  let w' := Sample.world [("/a.txt", Sample.file Sample.crlfBytes 1000)] [] in
  let after sniff :=
    performReplacements sniff Sample.compareLengths results "X" None w in
  let after' :=
    performReplacements (fun _ => Some LINE_ENDINGS_CRLF)
      Sample.compareLengths results "X" None w' in
  ((after (fun _ => Some LINE_ENDINGS_CRLF)).2 = batchResolved /\
   bytesAt (after (fun _ => Some LINE_ENDINGS_CRLF)).1.2 "/a.txt"
     <> bytesAt w "/a.txt") /\
  ((after (fun _ => Some LINE_ENDINGS_LF)).2 = batchResolved /\
   bytesAt (after (fun _ => Some LINE_ENDINGS_LF)).1.2 "/a.txt"
     <> bytesAt w "/a.txt") /\
  ((after (fun _ => None)).2 = batchResolved /\
   bytesAt (after (fun _ => None)).1.2 "/a.txt" <> bytesAt w "/a.txt") /\
  (after'.2 = batchResolved /\
   bytesAt after'.1.2 "/a.txt" <> Some (normalizeText Sample.crlfBytes)).
Proof. repeat split; vm_compute; (reflexivity || discriminate). Qed.

Lemma performReplacements_file_without_checked_match_witness :
  let results :=
    [("/a.js", Sample.info [Sample.uncheck Sample.foo]);
     ("/b.js", Sample.info [Sample.foo; Sample.bar])] in
  let w := Sample.world Sample.threeFiles [] in
  NoDup (keys results) /\
  ("/a.js", Sample.info [Sample.uncheck Sample.foo]) ∈ results /\
  Forall (fun m => isChecked m = false)
    (matches (Sample.info [Sample.uncheck Sample.foo])) /\
  openDocuments w !! "/a.js" = None /\
  forceFilesOpen (default noOptions None) = false /\
  disk (performReplacements (fun _ => None) Sample.compareLengths results
          "X" None w).1.2 !! "/a.js"
  = Some {| text := Sample.contents; mtime := 1001; readOnly := false |}.
Proof.
  cbv zeta.
  assert (Hnd : NoDup (keys
            [("/a.js", Sample.info [Sample.uncheck Sample.foo]);
             ("/b.js", Sample.info [Sample.foo; Sample.bar])]))
    by (apply (bool_decide_unpack _); by vm_compute).
  assert (Hin : ("/a.js", Sample.info [Sample.uncheck Sample.foo])
                ∈ [("/a.js", Sample.info [Sample.uncheck Sample.foo]);
                   ("/b.js", Sample.info [Sample.foo; Sample.bar])])
    by (by left).
  assert (Hun : Forall (fun m => isChecked m = false)
                  (matches (Sample.info [Sample.uncheck Sample.foo])))
    by (repeat constructor).
  split; [exact Hnd|]. split; [exact Hin|]. split; [exact Hun|].
  split; [reflexivity|]. split; [reflexivity|].
  exact (performReplacements_file_without_checked_match
           (fun _ => None) Sample.compareLengths "X" None _
           (Sample.world Sample.threeFiles []) "/a.js" _
           Hnd Hin Hun eq_refl eq_refl).
Defined.

(** ** The result store *)

Lemma keys_setProperty {V} (o : list (string * V)) (k : string) (v : V) :
  keys (setProperty o k v) = if decide (k ∈ keys o) then keys o
                        else keys o ++ [k].
Proof.
  induction o as [|[k' v'] r IH]; simpl; [reflexivity|].
  destruct (decide (k' = k)) as [->|Hne]; simpl.
  - rewrite decide_True; [reflexivity|]. apply elem_of_cons. by left.
  - rewrite IH. destruct (decide (k ∈ keys r)) as [Hin|Hout].
    + rewrite decide_True; [reflexivity|]. apply elem_of_cons. by right.
    + rewrite decide_False; [reflexivity|].
      rewrite elem_of_cons. intros [?|?]; [congruence|contradiction].
Qed.

(** Keys stay distinct: [addResultMatches] replaces the entry of a path that
    is already there. *)
Lemma addResultMatches_NoDup (self : SearchModel.SearchModel)
    (fullpath : string) (ms : list Match) (time : Z) :
  NoDup (keys (SearchModel.results self)) ->
  NoDup
    (keys (SearchModel.results
             (SearchModel.addResultMatches self fullpath ms time))).
Proof.
  intros Hnd. unfold SearchModel.addResultMatches.
  destruct (decide (fullpath = "__proto__")); [exact Hnd|].
  cbn [SearchModel.results]. rewrite keys_setProperty.
  destruct (decide (fullpath ∈ keys (SearchModel.results self)));
    [exact Hnd|].
  apply NoDup_app. split; [exact Hnd|].
  split; [|apply NoDup_singleton].
  intros x Hx Hx'. apply list_elem_of_singleton in Hx' as ->. contradiction.
Qed.

Lemma StronglySorted_restrict {A} (R R' : A -> A -> Prop) (l : list A) :
  (forall x y, x ∈ l -> y ∈ l -> R x y -> R' x y) ->
  StronglySorted R l -> StronglySorted R' l.
Proof.
  intros Himp Hs. induction Hs as [|x r Hs IH Hall]; constructor.
  - apply IH. intros a b Ha Hb. apply Himp; apply elem_of_cons; by right.
  - rewrite Forall_forall in Hall |- *. intros y Hy.
    apply Himp; [apply elem_of_cons; by left|apply elem_of_cons; by right|].
    by apply Hall.
Qed.

(** A cleared store has no results, whatever it held. *)
Lemma hasResults_clear (self : SearchModel.SearchModel) :
  SearchModel.hasResults (SearchModel.clear self).1 = false.
Proof. reflexivity. Qed.

(** [countFilesMatches] counts the entries and adds up their matches. *)
Lemma countFilesMatches_spec (self : SearchModel.SearchModel) :
  SearchModel.countFilesMatches self
  = (Z.of_nat (length (SearchModel.results self)),
     foldr (fun entry n => Z.of_nat (length (matches entry.2)) + n) 0
           (SearchModel.results self)).
Proof.
  unfold SearchModel.countFilesMatches.
  assert (H : forall (l : list (string * MatchInfo)) (a b : Z),
    fold_left
      (fun '(numFiles, numMatches) '(_, item) =>
         (numFiles + 1, numMatches + Z.of_nat (length (matches item))))
      l (a, b)
    = (a + Z.of_nat (length l),
       b + foldr (fun entry n => Z.of_nat (length (matches entry.2)) + n) 0
                 l)).
  { induction l as [|[k item] r IH]; intros a b; simpl.
    - f_equal; lia.
    - rewrite IH. f_equal; lia. }
  rewrite H. f_equal; lia.
Qed.

Section GetSortedFilesFacts.

Variable comparePaths : string -> string -> Z.

(** The path comparison is consistent. *)
Hypothesis comparePaths_total :
  forall x y, cmpLe comparePaths x y \/ cmpLe comparePaths y x.
Hypothesis comparePaths_trans :
  forall x y z,
    cmpLe comparePaths x y -> cmpLe comparePaths y z ->
    cmpLe comparePaths x z.

Variable self : SearchModel.SearchModel.

Local Abbreviation compareKeys := (SearchModel.compareKeys comparePaths self).

Lemma compareKeys_total (x y : string) :
  cmpLe compareKeys x y \/ cmpLe compareKeys y x.
Proof.
  unfold cmpLe, SearchModel.compareKeys.
  destruct (decide (SearchModel._selectedEntry self = Some x));
    [left; lia|].
  destruct (decide (SearchModel._selectedEntry self = Some y));
    [right; lia|].
  apply comparePaths_total.
Qed.

Lemma compareKeys_trans (x y z : string) :
  cmpLe compareKeys x y -> cmpLe compareKeys y z -> cmpLe compareKeys x z.
Proof.
  unfold cmpLe, SearchModel.compareKeys.
  destruct (decide (SearchModel._selectedEntry self = Some x)); [lia|].
  destruct (decide (SearchModel._selectedEntry self = Some y)); [lia|].
  destruct (decide (SearchModel._selectedEntry self = Some z)); [lia|].
  apply comparePaths_trans.
Qed.

(** Away from the selected entry, keys compare as paths. *)
Lemma compareKeys_unselected (x y : string) :
  SearchModel._selectedEntry self <> Some x ->
  SearchModel._selectedEntry self <> Some y ->
  compareKeys x y = comparePaths x y.
Proof.
  intros Hx Hy. unfold SearchModel.compareKeys.
  by rewrite !decide_False.
Qed.

(** C8: for a store whose keys are distinct and a consistent path
    comparison, [getSortedFiles] returns the keys of the results (all of
    them, each once); when the selected entry is one of the keys it comes
    first and the paths after it are in the order of the path comparison;
    otherwise all paths are in that order; and the sequence depends on the
    keys and the selected entry only, so a store that is unchanged gives the
    same sequence again. *)
Theorem getSortedFiles_selected_first_then_by_path :
  NoDup (keys (SearchModel.results self)) ->
  let files := SearchModel.getSortedFiles comparePaths self in
  Permutation files (keys (SearchModel.results self)) /\
  (forall selected,
     SearchModel._selectedEntry self = Some selected ->
     selected ∈ keys (SearchModel.results self) ->
     exists rest,
       files = selected :: rest /\ (selected ∉ rest) /\
       StronglySorted (cmpLe comparePaths) rest) /\
  ((forall selected,
      SearchModel._selectedEntry self = Some selected ->
      selected ∉ keys (SearchModel.results self)) ->
   StronglySorted (cmpLe comparePaths) files) /\
  (forall self',
     keys (SearchModel.results self') = keys (SearchModel.results self) ->
     SearchModel._selectedEntry self' = SearchModel._selectedEntry self ->
     SearchModel.getSortedFiles comparePaths self' = files).
Proof.
  intros Hnd files.
  assert (Hperm : Permutation files (keys (SearchModel.results self)))
    by apply sort_Permutation.
  assert (Hsorted : StronglySorted (cmpLe compareKeys) files)
    by (apply sort_StronglySorted;
        [apply compareKeys_total|apply compareKeys_trans]).
  split; [exact Hperm|]. split; [|split].
  - intros selected Hsel Hin.
    rewrite <- Hperm in Hnd, Hin.
    destruct files as [|h rest]; [by apply elem_of_nil in Hin|].
    apply StronglySorted_inv in Hsorted as [Hrest Hall].
    apply NoDup_cons in Hnd as [Hh Hnd].
    assert (h = selected) as ->.
    { apply elem_of_cons in Hin as [->|Hin]; [reflexivity|].
      rewrite Forall_forall in Hall. specialize (Hall _ Hin).
      unfold cmpLe, SearchModel.compareKeys in Hall.
      destruct (decide (SearchModel._selectedEntry self = Some h));
        [congruence|].
      rewrite decide_True in Hall by exact Hsel. lia. }
    exists rest. split; [reflexivity|]. split; [exact Hh|].
    eapply StronglySorted_restrict; [|exact Hrest].
    intros x y Hx Hy Hxy. unfold cmpLe in *.
    rewrite compareKeys_unselected in Hxy; [exact Hxy|..];
      rewrite Hsel; intros [= ->]; contradiction.
  - intros Hout.
    eapply StronglySorted_restrict; [|exact Hsorted].
    intros x y Hx Hy Hxy. unfold cmpLe in *.
    rewrite Hperm in Hx, Hy.
    rewrite compareKeys_unselected in Hxy; [exact Hxy|..];
      intros Hsel; by apply (Hout _ Hsel).
  - intros self' Hkeys Hsel. subst files.
    unfold SearchModel.getSortedFiles. rewrite Hkeys. f_equal.
    unfold SearchModel.compareKeys. by rewrite Hsel.
Qed.

End GetSortedFilesFacts.

Lemma compareLengths_total (x y : string) :
  cmpLe Sample.compareLengths x y \/ cmpLe Sample.compareLengths y x.
Proof. unfold cmpLe, Sample.compareLengths. lia. Qed.

Lemma compareLengths_trans (x y z : string) :
  cmpLe Sample.compareLengths x y -> cmpLe Sample.compareLengths y z ->
  cmpLe Sample.compareLengths x z.
Proof. unfold cmpLe, Sample.compareLengths. lia. Qed.

Lemma getSortedFiles_selected_first_then_by_path_witness :
  let self :=
    Sample.model
      [("/bb.js", Sample.info []); ("/a.js", Sample.info []);
       ("/ccc.js", Sample.info [])]
      (Some "/ccc.js") in
  (forall x y,
     cmpLe Sample.compareLengths x y \/ cmpLe Sample.compareLengths y x) /\
  (forall x y z,
     cmpLe Sample.compareLengths x y -> cmpLe Sample.compareLengths y z ->
     cmpLe Sample.compareLengths x z) /\
  NoDup (keys (SearchModel.results self)) /\
  SearchModel.getSortedFiles Sample.compareLengths self
    = ["/ccc.js"; "/a.js"; "/bb.js"] /\
  exists rest,
    SearchModel.getSortedFiles Sample.compareLengths self
      = "/ccc.js" :: rest /\
    ("/ccc.js" ∉ rest) /\
    StronglySorted (cmpLe Sample.compareLengths) rest.
Proof.
  cbv zeta.
  assert (Hnd : NoDup (keys (SearchModel.results
            (Sample.model
               [("/bb.js", Sample.info []); ("/a.js", Sample.info []);
                ("/ccc.js", Sample.info [])]
               (Some "/ccc.js"))))).
  { apply (bool_decide_unpack _). by vm_compute. }
  split; [exact compareLengths_total|].
  split; [exact compareLengths_trans|].
  split; [exact Hnd|].
  split; [reflexivity|].
  destruct
    (getSortedFiles_selected_first_then_by_path Sample.compareLengths
       compareLengths_total compareLengths_trans _ Hnd)
    as (_ & Hfirst & _).
  apply (Hfirst "/ccc.js" eq_refl).
  apply (bool_decide_unpack _). by vm_compute.
Defined.

(** * Further properties *)

(** ** [parseDollars] *)

Lemma dollars_add (a b : nat) : dollars (a + b) = dollars a +:+ dollars b.
Proof.
  induction a as [|a IH]; [reflexivity|].
  simpl. by rewrite IH.
Qed.

Lemma hasNoDollar_without_pair (s : string) :
  hasNoDollar s = true -> hasNoDollarPair s = true.
Proof.
  induction s as [|c r IH]; [reflexivity|].
  cbn [hasNoDollar hasNoDollarPair]. intros H.
  apply andb_true_iff in H as [Hc Hr].
  rewrite exec_dollar_pair_other; [by apply IH|].
  intros ->. discriminate Hc.
Qed.

Lemma expand_dollar_exprs_without_dollar (s : string)
    (match_ : list (option string)) :
  hasNoDollar s = true -> expand_dollar_exprs s match_ = s.
Proof.
  induction s as [|c r IH]; [reflexivity|].
  cbn [hasNoDollar]. intros H. apply andb_true_iff in H as [Hc Hr].
  rewrite expand_dollar_exprs_other by (intros ->; discriminate Hc).
  by rewrite IH.
Qed.

(** X1: a replace string without a dollar sign comes back as it is,
    whatever the match. *)
Theorem parseDollars_without_dollar (replaceWith : string)
    (match_ : list (option string)) :
  hasNoDollar replaceWith = true ->
  parseDollars replaceWith match_ = replaceWith.
Proof.
  intros H. unfold parseDollars.
  rewrite expand_dollar_exprs_without_dollar by exact H.
  apply unescape_dollars_without_pair. by apply hasNoDollar_without_pair.
Qed.

Lemma parseDollars_without_dollar_witness :
  hasNoDollar "a.b&1" = true /\
  parseDollars "a.b&1" [Some "x"; Some "y"] = "a.b&1".
Proof.
  split; [reflexivity|].
  exact (parseDollars_without_dollar "a.b&1" [Some "x"; Some "y"] eq_refl).
Defined.

(** X2: a replace string made of dollar signs only: every pair becomes one
    dollar sign and a last single one stays, so [2j] dollar signs give [j]
    and [2j+1] give [j+1]. *)
Theorem parseDollars_only_dollars (j : nat)
    (match_ : list (option string)) :
  parseDollars (dollars (2 * j)) match_ = dollars j /\
  parseDollars (dollars (2 * j + 1)) match_ = dollars (j + 1).
Proof.
  assert (Hfirst : forall k, expand_dollar_exprs (dollars k) match_
                             = dollars k).
  { intros k.
    pose proof (expand_dollar_exprs_without_token k EmptyString match_
                  eq_refl eq_refl) as H.
    rewrite append_empty_r in H. rewrite H. apply append_empty_r. }
  unfold parseDollars. rewrite !Hfirst. split.
  - rewrite <- (append_empty_r (dollars (2 * j))).
    rewrite unescape_dollars_run. apply append_empty_r.
  - rewrite !dollars_add, unescape_dollars_run. reflexivity.
Qed.

(** X3: an even run of dollar signs before an index token escapes it: the
    [2j+2] dollar signs and the token come back as [j+1] dollar signs and
    the token, whatever the match. *)
Theorem parseDollars_even_run_is_literal (j : nat) (index : string)
    (match_ : list (option string)) :
  index_token index = Some index ->
  parseDollars (dollars (2 * j + 2) +:+ index) match_
  = dollars (j + 1) +:+ index.
Proof.
  intros Htoken.
  replace (2 * j + 2)%nat with (S (S (2 * j))) by lia.
  rewrite parseDollars_run_and_token by exact Htoken.
  rewrite dollar_callback_even.
  2:{ rewrite Nat.odd_succ, Nat.even_succ, <- Nat.negb_even.
      by rewrite Nat.even_mul. }
  replace (S (S (2 * j))) with (2 * (j + 1))%nat by lia.
  rewrite unescape_dollars_run, unescape_dollars_without_pair;
    [reflexivity|by apply index_token_without_pair].
Qed.

Lemma parseDollars_even_run_is_literal_witness :
  index_token "&" = Some "&" /\
  parseDollars "$$$$&" [Some "whole"] = "$$&".
Proof.
  split; [reflexivity|].
  exact (parseDollars_even_run_is_literal 1 "&" [Some "whole"] eq_refl).
Defined.

(** X4: after an odd run of dollar signs, the index of a group that the
    match does not have, or that took no part in it, is replaced by nothing:
    [2j+1] dollar signs and the index give [j] dollar signs. *)
Theorem parseDollars_missing_group_is_empty (j n : nat) (index : string)
    (match_ : list (option string)) :
  index_token index = Some index ->
  parseInt10 index = Some (S n) ->
  at_index match_ (S n) = None ->
  parseDollars (dollars (2 * j + 1) +:+ index) match_ = dollars j.
Proof.
  intros Htoken Hindex Hnone.
  rewrite (proj1 (parseDollars_run_and_group j n index match_ Htoken Hindex)).
  rewrite Hnone. apply append_empty_r.
Qed.

Lemma parseDollars_missing_group_is_empty_witness :
  index_token "12" = Some "12" /\
  parseInt10 "12" = Some 12%nat /\
  at_index [Some "ab"; Some "a"; None] 12 = None /\
  parseDollars "$12" [Some "ab"; Some "a"; None] = "".
Proof.
  do 3 (split; [reflexivity|]).
  exact (parseDollars_missing_group_is_empty 0 11 "12"
           [Some "ab"; Some "a"; None] eq_refl eq_refl eq_refl).
Defined.

Lemma exec_dollar_pair_before_digit (c : ascii) (r : string) :
  is_digit c = true -> exec_dollar_pair (String "$" (String c r)) = None.
Proof.
  intros Hc. destruct c as [[] [] [] [] [] [] [] []]; try reflexivity.
  discriminate Hc.
Qed.

(** X5: the index zero is never substituted: after an odd run of [2j+1]
    dollar signs, "0" or "00" comes back behind [j+1] dollar signs, whatever
    the match. *)
Theorem parseDollars_zero_index_is_literal (j : nat) (index : string)
    (match_ : list (option string)) :
  index_token index = Some index ->
  parseInt10 index = Some O ->
  parseDollars (dollars (2 * j + 1) +:+ index) match_
  = dollars (j + 1) +:+ index.
Proof.
  intros Htoken Hindex.
  replace (2 * j + 1)%nat with (S (2 * j)) by lia.
  rewrite parseDollars_run_and_token by exact Htoken.
  rewrite dollar_callback_odd_zero;
    [|rewrite Nat.odd_succ; apply Nat.even_mul; by left|exact Hindex].
  change (dollars (S (2 * j))) with (String "$" (dollars (2 * j))).
  replace (String "$" (dollars (2 * j)) +:+ index)
    with (dollars (2 * j) +:+ String "$" index).
  2:{ clear. induction (2 * j)%nat as [|k IH]; [reflexivity|].
      simpl dollars. rewrite !append_cons. f_equal. exact IH. }
  rewrite unescape_dollars_run, unescape_dollars_without_pair.
  - rewrite dollars_add. by rewrite append_assoc.
  - cbn [hasNoDollarPair].
    destruct index as [|c r]; [discriminate|].
    assert (Hc : is_digit c = true).
    { unfold parseInt10 in Hindex.
      destruct r as [|d [|e r']]; [| |discriminate].
      - by destruct (is_digit c).
      - destruct (is_digit c); [reflexivity|discriminate]. }
    rewrite exec_dollar_pair_before_digit by exact Hc.
    by apply index_token_without_pair.
Qed.

Lemma parseDollars_zero_index_is_literal_witness :
  index_token "00" = Some "00" /\
  parseInt10 "00" = Some O /\
  parseDollars "$$$00" [Some "ab"] = "$$00".
Proof.
  do 2 (split; [reflexivity|]).
  exact (parseDollars_zero_index_is_literal 1 "00" [Some "ab"]
           eq_refl eq_refl).
Defined.

(** ** The walk of [_doReplaceOnDisk] *)

Lemma len_append (a b : string) : len (a +:+ b) = len a + len b.
Proof. unfold len. rewrite length_append. lia. Qed.

Lemma substring_prefix (x y : string) :
  substring 0 (String.length x) (x +:+ y) = x.
Proof.
  induction x as [|c x IH]; [by destruct y|].
  rewrite append_cons. simpl. by rewrite IH.
Qed.

Lemma substring_middle (l x y : string) :
  substring (String.length l) (String.length x) (l +:+ x +:+ y) = x.
Proof.
  induction l as [|c l IH]; [exact (substring_prefix x y)|].
  rewrite append_cons. exact IH.
Qed.

(** [slice] between two cuts of a text, and from a cut to the end. *)
Lemma slice_middle (l x y : string) :
  slice (l +:+ x +:+ y) (len l) (Some (len l + len x)) = x.
Proof.
  unfold slice, clampIndex. rewrite !len_append. unfold len.
  destruct (Z.ltb_spec (Z.of_nat (String.length l)) 0); [lia|].
  destruct (Z.ltb_spec (Z.of_nat (String.length l)
                        + Z.of_nat (String.length x)) 0); [lia|].
  rewrite !Z.min_l, Z.max_l by lia.
  replace (Z.of_nat (String.length l) + Z.of_nat (String.length x)
           - Z.of_nat (String.length l))
    with (Z.of_nat (String.length x)) by lia.
  rewrite !Nat2Z.id. apply substring_middle.
Qed.

Lemma slice_to_end (l x : string) : slice (l +:+ x) (len l) None = x.
Proof.
  pose proof (slice_middle l x EmptyString) as H.
  rewrite append_empty_r in H.
  unfold slice, clampIndex in *. rewrite !len_append in *. unfold len in *.
  destruct (Z.ltb_spec (Z.of_nat (String.length l)) 0); [lia|].
  destruct (Z.ltb_spec (Z.of_nat (String.length l)
                        + Z.of_nat (String.length x)) 0); [lia|].
  rewrite !Z.min_l in H by lia. rewrite Z.min_l by lia. exact H.
Qed.

(** The walk, from a state where the text up to [done] is dealt with and
    [pending] is the text behind it that is still to be copied. *)
Lemma walk_laid_out (replaceText : string) (isRegexp : bool)
    (contents tail : string) (ms : list Match)
    (pieces : list (string * string)) :
  forall (done pending : string) (result : list string),
    contents = done +:+ pending +:+ textOf pieces +:+ tail ->
    LaidOut (len done + len pending) ms pieces ->
    join
      ((fold_left (pushReplacement contents replaceText isRegexp) ms
          (result, len done)).1
       ++ [slice contents
             (fold_left (pushReplacement contents replaceText isRegexp) ms
                (result, len done)).2 None])
    = join result +:+ pending
      +:+ replacedText replaceText isRegexp ms pieces +:+ tail.
Proof.
  revert pieces.
  induction ms as [|m ms IH]; intros pieces done pending result Hc Hlaid.
  - inversion Hlaid; subst. cbn [fold_left fst snd textOf replacedText].
    rewrite join_app. cbn [join]. rewrite append_empty_r.
    f_equal. f_equal. apply slice_to_end.
  - inversion Hlaid as [|base m' ms' gap matched pieces' Hs He Hrest];
      subst.
    cbn [fold_left textOf replacedText]. unfold pushReplacement at 2 4.
    destruct (isChecked m) eqn:Hchecked.
    + assert (Hslice :
        slice (done +:+ pending +:+ (gap +:+ matched +:+ textOf pieces')
               +:+ tail) (len done) (Some (startOffset m))
        = pending +:+ gap).
      { rewrite Hs.
        replace (done +:+ pending +:+ (gap +:+ matched +:+ textOf pieces')
                 +:+ tail)
          with (done +:+ (pending +:+ gap)
                +:+ (matched +:+ textOf pieces' +:+ tail))
          by (by rewrite !append_assoc).
        replace (len done + len pending + len gap)
          with (len done + len (pending +:+ gap))
          by (rewrite len_append; lia).
        apply slice_middle. }
      rewrite Hslice.
      replace (endOffset m)
        with (len (done +:+ pending +:+ gap +:+ matched)) at 1 2
        by (rewrite !len_append; lia).
      rewrite (IH pieces' (done +:+ pending +:+ gap +:+ matched)
                 EmptyString).
      * rewrite join_app. cbn [join].
        rewrite append_empty_r, append_empty_l.
        by rewrite !append_assoc.
      * cbn [textOf]. by rewrite !append_assoc.
      * replace (len (done +:+ pending +:+ gap +:+ matched)
                 + len EmptyString) with (endOffset m)
          by (rewrite !len_append; unfold len at 5; simpl; lia).
        exact Hrest.
    + rewrite (IH pieces' done (pending +:+ gap +:+ matched)).
      * cbn [textOf]. by rewrite !append_assoc.
      * cbn [textOf]. by rewrite !append_assoc.
      * replace (len done + len (pending +:+ gap +:+ matched))
          with (endOffset m) by (rewrite !len_append; lia).
        exact Hrest.
Qed.

(** X6: when the matches of a file lie in its text one after the other (in
    ascending order, without overlap), the text that [_doReplaceOnDisk]
    builds is the text of the file with the replacement in place of every
    checked match and everything else as it was: the gaps, the text of the
    unchecked matches and the text behind the last match (with every LF
    rewritten as CR LF for a CRLF file). *)
Theorem newContents_replaces_checked_matches
    (replaceText : string) (isRegexp : bool)
    (lineEndings : option LineEndings) (matchInfo : MatchInfo)
    (pieces : list (string * string)) (tail : string) :
  LaidOut 0 (matches matchInfo) pieces ->
  newContents (textOf pieces +:+ tail) lineEndings matchInfo replaceText
    isRegexp
  = encodeLineEndings lineEndings
      (replacedText replaceText isRegexp (matches matchInfo) pieces
       +:+ tail).
Proof.
  intros Hlaid.
  pose proof (walk_laid_out replaceText isRegexp (textOf pieces +:+ tail)
                tail (matches matchInfo) pieces EmptyString EmptyString []
                eq_refl Hlaid) as Hwalk.
  cbn [join] in Hwalk. rewrite !append_empty_l in Hwalk.
  unfold newContents.
  change (len EmptyString) with 0 in Hwalk.
  destruct (fold_left
              (pushReplacement (textOf pieces +:+ tail) replaceText isRegexp)
              (matches matchInfo) ([], 0)) as [result lastIndex].
  cbn [fst snd] in Hwalk. rewrite Hwalk.
  by destruct lineEndings as [[]|].
Qed.

Lemma newContents_replaces_checked_matches_witness :
  let matchInfo :=
    Sample.info [Sample.foo; Sample.uncheck Sample.bar] in
  let pieces := [("01234", "foo"); ("89", "bar")] in
  LaidOut 0 (matches matchInfo) pieces /\
  newContents "01234foo89bar!" None matchInfo "X" false = "01234X89bar!".
Proof.
  cbv zeta.
  assert (H : LaidOut 0
                (matches (Sample.info [Sample.foo; Sample.uncheck Sample.bar]))
                [("01234", "foo"); ("89", "bar")]).
  { apply LaidOut_cons; [reflexivity|reflexivity|].
    apply LaidOut_cons; [reflexivity|reflexivity|].
    apply LaidOut_nil. }
  split; [exact H|].
  exact (newContents_replaces_checked_matches "X" false None
           (Sample.info [Sample.foo; Sample.uncheck Sample.bar])
           [("01234", "foo"); ("89", "bar")] "!" H).
Defined.

Lemma everyLFAfterCR_toCRLF (afterCR : bool) (s : string) :
  everyLFAfterCR afterCR (toCRLF s) = true.
Proof.
  revert afterCR. induction s as [|c r IH]; intros afterCR; [reflexivity|].
  rewrite toCRLF_cons.
  destruct (Ascii.eqb_spec c LF) as [->|Hne].
  - cbn [everyLFAfterCR]. change (Ascii.eqb CR LF) with false.
    change (Ascii.eqb LF LF) with true. change (Ascii.eqb CR CR) with true.
    cbn [andb]. apply IH.
  - cbn [everyLFAfterCR].
    destruct (Ascii.eqb_spec c LF); [contradiction|]. cbn [andb]. apply IH.
Qed.

(** X7: for a file whose line endings were detected as CRLF, the text handed
    to the write holds no LF without a CR right before it, whatever the
    content, the matches and the replacement text are. *)
Theorem newContents_for_CRLF_has_no_bare_LF
    (contents : string) (matchInfo : MatchInfo) (replaceText : string)
    (isRegexp : bool) :
  everyLFAfterCR false
    (newContents contents (Some LINE_ENDINGS_CRLF) matchInfo replaceText
       isRegexp)
  = true.
Proof.
  unfold newContents.
  destruct (fold_left (pushReplacement contents replaceText isRegexp)
              (matches matchInfo) ([], 0)) as [result lastIndex].
  apply everyLFAfterCR_toCRLF.
Qed.

(** ** The choice between memory and disk *)

(** X8: a file that is open in a document is changed in memory, whatever
    the options say: the operation is resolved, the disk and the current
    document stay as they are, the other open documents too, and the
    document of the file is what [_doReplaceInDocument] makes of it. *)
Theorem doReplaceInOneFile_open_document_spares_disk
    (sniffLineEndings : string -> option LineEndings) (fullPath : string)
    (matchInfo : MatchInfo) (replaceText : string)
    (options : option Options) (w : World) (doc : Document) :
  openDocuments w !! fullPath = Some doc ->
  let r :=
    _doReplaceInOneFile sniffLineEndings fullPath matchInfo replaceText
      options w in
  r.2 = resolved tt /\
  disk r.1.1 = disk w /\
  currentDocument r.1.1 = currentDocument w /\
  (forall other, other <> fullPath ->
     openDocuments r.1.1 !! other = openDocuments w !! other) /\
  openDocuments r.1.1 !! fullPath
  = Some (_doReplaceInDocument doc matchInfo replaceText
            (isRegexp (default noOptions options))).1.1.
Proof.
  intros Hdoc. cbv zeta.
  unfold _doReplaceInOneFile, getOpenDocumentForPath. rewrite Hdoc.
  unfold replaceInOpenDocument.
  destruct (_doReplaceInDocument doc matchInfo replaceText
              (isRegexp (default noOptions options)))
    as [[doc' matchInfo'] p] eqn:Hrun.
  assert (p = resolved tt) as ->
    by (unfold _doReplaceInDocument in Hrun; congruence).
  cbn [fst snd withDocument disk currentDocument openDocuments].
  repeat split.
  - intros other Hne. by rewrite lookup_insert_ne.
  - by rewrite lookup_insert_eq.
Qed.

Lemma doReplaceInOneFile_open_document_spares_disk_witness :
  let w :=
    Sample.world [("/a.js", Sample.file Sample.contents 1000)]
      [("/a.js", newDocument)] in
  let r :=
    _doReplaceInOneFile (fun _ => None) "/a.js" (Sample.info [Sample.foo])
      "X" None w in
  openDocuments w !! "/a.js" = Some newDocument /\
  r.2 = resolved tt /\ disk r.1.1 = disk w.
Proof.
  cbv zeta. split; [reflexivity|].
  destruct
    (doReplaceInOneFile_open_document_spares_disk (fun _ => None) "/a.js"
       (Sample.info [Sample.foo]) "X" None
       (Sample.world [("/a.js", Sample.file Sample.contents 1000)]
          [("/a.js", newDocument)])
       newDocument eq_refl) as (Hp & Hdisk & _).
  split; [exact Hp|exact Hdisk].
Defined.

(** What every operation leaves alone is left alone by the batch. *)
Lemma batch_preserves {T : Type} (proj : World -> T)
    (sniffLineEndings : string -> option LineEndings)
    (replaceText : string) (options : option Options)
    (items : list (string * MatchInfo)) :
  forall (results : list (string * MatchInfo)) (w : World),
    (forall entry w',
       entry ∈ items -> proj w' = proj w ->
       proj (_doReplaceInOneFile sniffLineEndings entry.1 entry.2
               replaceText options w').1.1 = proj w) ->
    proj (doInParallel_aggregateErrors items fst
            (replaceItem sniffLineEndings replaceText options)
            (results, w)).1.2
    = proj w.
Proof.
  induction items as [|entry rest IH]; intros results w Hop;
    [reflexivity|].
  rewrite run_cons, replaceItem_eq. cbn [fst snd].
  set (w1 := (_doReplaceInOneFile sniffLineEndings entry.1 entry.2
                replaceText options w).1.1).
  assert (Hw1 : proj w1 = proj w) by (apply Hop; [by left|reflexivity]).
  rewrite <- Hw1. apply IH. intros e w' He Hw'.
  rewrite Hw1. apply Hop; [by right|congruence].
Qed.

Lemma selectFirstModified_disk_documents
    (comparePaths : string -> string -> Z)
    (results : list (string * MatchInfo)) (options : option Options)
    (w : World) :
  disk (selectFirstModified comparePaths results options w) = disk w /\
  openDocuments (selectFirstModified comparePaths results options w)
  = openDocuments w.
Proof. unfold selectFirstModified. by repeat case_match. Qed.

(** The world of a batch is that of its operations, and of the [done]
    handler after them. *)
Lemma performReplacements_world_cases
    (sniffLineEndings : string -> option LineEndings)
    (comparePaths : string -> string -> Z)
    (results : list (string * MatchInfo)) (replaceText : string)
    (options : option Options) (w : World) :
  let ran :=
    doInParallel_aggregateErrors results fst
      (replaceItem sniffLineEndings replaceText options) (results, w) in
  let r :=
    performReplacements sniffLineEndings comparePaths results replaceText
      options w in
  r.1.1 = ran.1.1 /\
  ((r.2 = batchResolved /\
    r.1.2 = selectFirstModified comparePaths ran.1.1 options ran.1.2) \/
   (r.2 <> batchResolved /\ r.1.2 = ran.1.2)).
Proof.
  cbv zeta. unfold performReplacements.
  destruct (doInParallel_aggregateErrors results fst
              (replaceItem sniffLineEndings replaceText options)
              (results, w)) as [[results' w'] errors].
  destruct errors as [|failure errors]; cbn [settle fst snd].
  - split; [reflexivity|]. by left.
  - split; [reflexivity|]. right. by split.
Qed.

(** X9: with [forceFilesOpen], a batch writes no file: the disk after it is
    the disk before it, whatever the results and whether or not the batch
    succeeds. *)
Theorem performReplacements_forced_open_spares_disk
    (sniffLineEndings : string -> option LineEndings)
    (comparePaths : string -> string -> Z)
    (results : list (string * MatchInfo)) (replaceText : string)
    (options : option Options) (w : World) :
  forceFilesOpen (default noOptions options) = true ->
  disk (performReplacements sniffLineEndings comparePaths results
          replaceText options w).1.2
  = disk w.
Proof.
  intros Hforce.
  assert (Hran :
    disk (doInParallel_aggregateErrors results fst
            (replaceItem sniffLineEndings replaceText options)
            (results, w)).1.2 = disk w).
  { apply (batch_preserves disk). intros entry w' _ Hw'.
    unfold _doReplaceInOneFile, getOpenDocumentForPath, getDocumentForPath,
      replaceInOpenDocument, _doReplaceInDocument.
    rewrite Hforce.
    destruct (openDocuments w' !! entry.1); [exact Hw'|].
    by destruct (disk w' !! entry.1). }
  destruct (performReplacements_world_cases sniffLineEndings comparePaths
              results replaceText options w) as (_ & [[_ ->]|[_ ->]]);
    [|exact Hran].
  by rewrite (proj1 (selectFirstModified_disk_documents _ _ _ _)).
Qed.

Lemma performReplacements_forced_open_spares_disk_witness :
  let options := Some {| forceFilesOpen := true; isRegexp := false |} in
  let w := Sample.world Sample.threeFiles [] in
  forceFilesOpen (default noOptions options) = true /\
  disk (performReplacements (fun _ => None) Sample.compareLengths
          Sample.threeResults "X" options w).1.2
  = disk w.
Proof.
  cbv zeta. split; [reflexivity|].
  exact (performReplacements_forced_open_spares_disk (fun _ => None)
           Sample.compareLengths Sample.threeResults "X"
           (Some {| forceFilesOpen := true; isRegexp := false |})
           (Sample.world Sample.threeFiles []) eq_refl).
Defined.

(** X10: without [forceFilesOpen], a batch over files none of which is open
    in a document opens none: the open documents after it are those before
    it. *)
Theorem performReplacements_on_disk_spares_documents
    (sniffLineEndings : string -> option LineEndings)
    (comparePaths : string -> string -> Z)
    (results : list (string * MatchInfo)) (replaceText : string)
    (options : option Options) (w : World) :
  forceFilesOpen (default noOptions options) = false ->
  (forall entry, entry ∈ results -> openDocuments w !! entry.1 = None) ->
  openDocuments (performReplacements sniffLineEndings comparePaths results
                   replaceText options w).1.2
  = openDocuments w.
Proof.
  intros Hforce Hclosed.
  assert (Hran :
    openDocuments (doInParallel_aggregateErrors results fst
                     (replaceItem sniffLineEndings replaceText options)
                     (results, w)).1.2 = openDocuments w).
  { apply (batch_preserves openDocuments). intros entry w' Hentry Hw'.
    unfold _doReplaceInOneFile, getOpenDocumentForPath.
    rewrite Hforce, Hw', (Hclosed _ Hentry).
    unfold _doReplaceOnDisk, write.
    destruct (getDocumentText sniffLineEndings w' entry.1)
      as [[[contents time] lineEndings]|err]; [|exact Hw'].
    destruct (negb (time =? timestamp entry.2)); [exact Hw'|].
    destruct (disk w' !! entry.1) as [f|]; [|exact Hw'].
    by destruct (readOnly f). }
  destruct (performReplacements_world_cases sniffLineEndings comparePaths
              results replaceText options w) as (_ & [[_ ->]|[_ ->]]);
    [|exact Hran].
  by rewrite (proj2 (selectFirstModified_disk_documents _ _ _ _)).
Qed.

Lemma performReplacements_on_disk_spares_documents_witness :
  let w := Sample.world Sample.threeFiles [] in
  forceFilesOpen (default noOptions None) = false /\
  (forall entry,
     entry ∈ Sample.threeResults -> openDocuments w !! entry.1 = None) /\
  openDocuments (performReplacements (fun _ => None) Sample.compareLengths
                   Sample.threeResults "X" None w).1.2
  = openDocuments w.
Proof.
  cbv zeta.
  assert (H : forall entry : string * MatchInfo,
            entry ∈ Sample.threeResults ->
            openDocuments (Sample.world Sample.threeFiles []) !! entry.1
            = None) by (intros entry _; reflexivity).
  split; [reflexivity|]. split; [exact H|].
  exact (performReplacements_on_disk_spares_documents (fun _ => None)
           Sample.compareLengths Sample.threeResults "X" None
           (Sample.world Sample.threeFiles []) eq_refl H).
Defined.

(** X11: the current document changes only when [forceFilesOpen] is set and
    the batch is resolved; otherwise it is after the batch what it was
    before. *)
Theorem performReplacements_current_document
    (sniffLineEndings : string -> option LineEndings)
    (comparePaths : string -> string -> Z)
    (results : list (string * MatchInfo)) (replaceText : string)
    (options : option Options) (w : World) :
  let r :=
    performReplacements sniffLineEndings comparePaths results replaceText
      options w in
  currentDocument r.1.2 = currentDocument w \/
  (forceFilesOpen (default noOptions options) = true /\
   r.2 = batchResolved).
Proof.
  cbv zeta.
  assert (Hran :
    currentDocument (doInParallel_aggregateErrors results fst
                       (replaceItem sniffLineEndings replaceText options)
                       (results, w)).1.2 = currentDocument w).
  { apply (batch_preserves currentDocument). intros entry w' _ Hw'.
    unfold _doReplaceInOneFile, getOpenDocumentForPath, getDocumentForPath,
      replaceInOpenDocument, _doReplaceInDocument, _doReplaceOnDisk, write.
    destruct (openDocuments w' !! entry.1); [exact Hw'|].
    destruct (forceFilesOpen (default noOptions options)).
    - by destruct (disk w' !! entry.1).
    - destruct (getDocumentText sniffLineEndings w' entry.1)
        as [[[contents time] lineEndings]|err]; [|exact Hw'].
      destruct (negb (time =? timestamp entry.2)); [exact Hw'|].
      destruct (disk w' !! entry.1) as [f|]; [|exact Hw'].
      by destruct (readOnly f). }
  destruct (performReplacements_world_cases sniffLineEndings comparePaths
              results replaceText options w)
    as (_ & [[Hres Hw]|[_ Hw]]); rewrite Hw; [|by left].
  destruct (forceFilesOpen (default noOptions options)) eqn:Hforce;
    [right; by split|].
  left. unfold selectFirstModified. by rewrite Hforce.
Qed.

(** ** The results object after a batch *)

Lemma existsb_Permutation {A} (f : A -> bool) (l l' : list A) :
  Permutation l l' -> existsb f l = existsb f l'.
Proof.
  induction 1 as [|x l l' _ IH|x y l|l l' l'' _ IH1 _ IH2]; simpl.
  - reflexivity.
  - by rewrite IH.
  - by destruct (f x), (f y).
  - congruence.
Qed.

Lemma reordered_refl (matchInfo : MatchInfo) : reordered matchInfo matchInfo.
Proof. by repeat split. Qed.

(** An operation gives the match info back with its matches reordered at
    most. *)
Lemma doReplaceInOneFile_reordered
    (sniffLineEndings : string -> option LineEndings) (fullPath : string)
    (matchInfo : MatchInfo) (replaceText : string)
    (options : option Options) (w : World) :
  reordered matchInfo
    (_doReplaceInOneFile sniffLineEndings fullPath matchInfo replaceText
       options w).1.2.
Proof.
  assert (Hsorted : forall doc isRegexp w',
    reordered matchInfo
      (replaceInOpenDocument fullPath doc matchInfo replaceText isRegexp
         w').1.2).
  { intros doc isRegexp w'.
    unfold replaceInOpenDocument, _doReplaceInDocument. cbn [fst snd].
    split; [apply sort_Permutation|by split]. }
  unfold _doReplaceInOneFile, getOpenDocumentForPath.
  destruct (openDocuments w !! fullPath) as [doc|]; [apply Hsorted|].
  destruct (forceFilesOpen (default noOptions options)).
  - destruct (getDocumentForPath w fullPath) as [w' [newDoc|err]];
      [apply Hsorted|apply reordered_refl].
  - destruct (_doReplaceOnDisk sniffLineEndings fullPath matchInfo
                replaceText (isRegexp (default noOptions options)) w).
    apply reordered_refl.
Qed.

Lemma getProperty_elem_of {V} (o : list (string * V)) (k : string) (v : V) :
  getProperty o k = Some v -> (k, v) ∈ o.
Proof.
  induction o as [|[k' v'] r IH]; simpl; [discriminate|].
  destruct (decide (k' = k)) as [->|Hne].
  - intros [= ->]. by left.
  - intros H. right. by apply IH.
Qed.

Lemma elem_of_getProperty {V} (o : list (string * V)) (k : string) (v : V) :
  NoDup (keys o) -> (k, v) ∈ o -> getProperty o k = Some v.
Proof.
  induction o as [|[k' v'] r IH]; simpl; intros Hnd Hin.
  - by apply elem_of_nil in Hin.
  - apply NoDup_cons in Hnd as [Hfresh Hnd].
    apply elem_of_cons in Hin as [[= -> ->]|Hin].
    + by rewrite decide_True.
    + rewrite decide_False; [by apply IH|].
      intros ->. apply Hfresh. unfold keys. apply list_elem_of_fmap.
      by exists (k, v).
Qed.

(** The results object during a batch: the keys stay, and the entry of a
    path is the one it was or the one an operation gave back for it. *)
Lemma batch_results
    (sniffLineEndings : string -> option LineEndings)
    (replaceText : string) (options : option Options)
    (items : list (string * MatchInfo)) :
  forall (results : list (string * MatchInfo)) (w : World),
    (forall entry, entry ∈ items -> entry.1 ∈ keys results) ->
    let results' :=
      (doInParallel_aggregateErrors items fst
         (replaceItem sniffLineEndings replaceText options)
         (results, w)).1.1 in
    keys results' = keys results /\
    forall fullPath,
      getProperty results' fullPath = getProperty results fullPath \/
      exists matchInfo matchInfo',
        (fullPath, matchInfo) ∈ items /\
        getProperty results' fullPath = Some matchInfo' /\
        reordered matchInfo matchInfo'.
Proof.
  induction items as [|[path matchInfo] rest IH]; intros results w Hkeys.
  { cbv zeta. cbn [doInParallel_aggregateErrors fst].
    split; [reflexivity|]. intros fullPath. by left. }
  cbv zeta. rewrite run_cons, replaceItem_eq. cbn [fst snd].
  set (w1 := (_doReplaceInOneFile sniffLineEndings path matchInfo
                replaceText options w).1.1).
  set (matchInfo1 := (_doReplaceInOneFile sniffLineEndings path matchInfo
                        replaceText options w).1.2).
  assert (Hsame : keys (setProperty results path matchInfo1) = keys results).
  { rewrite keys_setProperty. rewrite decide_True; [reflexivity|].
    apply (Hkeys (path, matchInfo)). by left. }
  destruct (IH (setProperty results path matchInfo1) w1) as (Hk & Hentries).
  { intros entry Hentry. rewrite Hsame. apply Hkeys. by right. }
  split; [by rewrite Hk|].
  intros fullPath. destruct (Hentries fullPath) as [Heq|Hlater].
  - rewrite Heq. destruct (decide (path = fullPath)) as [<-|Hne].
    + right. exists matchInfo, matchInfo1.
      split; [by left|]. split; [apply getProperty_setProperty|].
      apply doReplaceInOneFile_reordered.
    + left. by apply getProperty_setProperty_ne.
  - right. destruct Hlater as (mi & mi' & Hin & Hget & Hre).
    exists mi, mi'. split; [by right|by split].
Qed.

(** X12: a batch removes and adds no entry of the results object.  With
    distinct keys, the keys are after the batch what they were, in the same
    order, and every entry holds the same matches as before, in some order,
    with the same timestamp and collapsed flag; so a file has a checked
    match after the batch exactly when it had one before. *)
Theorem performReplacements_keeps_results
    (sniffLineEndings : string -> option LineEndings)
    (comparePaths : string -> string -> Z)
    (results : list (string * MatchInfo)) (replaceText : string)
    (options : option Options) (w : World) :
  NoDup (keys results) ->
  let results' :=
    (performReplacements sniffLineEndings comparePaths results replaceText
       options w).1.1 in
  keys results' = keys results /\
  forall fullPath matchInfo,
    getProperty results fullPath = Some matchInfo ->
    exists matchInfo',
      getProperty results' fullPath = Some matchInfo' /\
      reordered matchInfo matchInfo' /\
      hasCheckedMatches matchInfo' = hasCheckedMatches matchInfo.
Proof.
  intros Hnd. cbv zeta.
  destruct (performReplacements_world_cases sniffLineEndings comparePaths
              results replaceText options w) as (-> & _).
  destruct (batch_results sniffLineEndings replaceText options results
              results w) as (Hk & Hentries).
  { intros entry Hentry. unfold keys. apply list_elem_of_fmap.
    by exists entry. }
  split; [exact Hk|].
  intros fullPath matchInfo Hget.
  assert (Hchecked : forall mi', reordered matchInfo mi' ->
            hasCheckedMatches mi' = hasCheckedMatches matchInfo).
  { intros mi' (Hperm & _). unfold hasCheckedMatches.
    by apply existsb_Permutation. }
  destruct (Hentries fullPath) as [Heq|(mi & mi' & Hin & Hget' & Hre)].
  - exists matchInfo. split; [congruence|].
    split; [apply reordered_refl|reflexivity].
  - assert (mi = matchInfo) as ->.
    { apply (elem_of_getProperty _ _ _ Hnd) in Hin. congruence. }
    exists mi'. split; [exact Hget'|]. split; [exact Hre|by apply Hchecked].
Qed.

Lemma performReplacements_keeps_results_witness :
  let w := Sample.world Sample.threeFiles [("/a.js", newDocument)] in
  NoDup (keys Sample.threeResults) /\
  keys (performReplacements (fun _ => None) Sample.compareLengths
          Sample.threeResults "X" None w).1.1
  = ["/a.js"; "/b.js"; "/c.js"].
Proof.
  cbv zeta.
  assert (Hnd : NoDup (keys Sample.threeResults))
    by (apply (bool_decide_unpack _); by vm_compute).
  split; [exact Hnd|].
  exact (proj1 (performReplacements_keeps_results (fun _ => None)
                  Sample.compareLengths Sample.threeResults "X" None
                  (Sample.world Sample.threeFiles [("/a.js", newDocument)])
                  Hnd)).
Defined.

(** ** The [done] handler *)

Lemma find_first_of_sorted {A} (R : A -> A -> Prop) (f : A -> bool)
    (l : list A) (x : A) :
  (forall a, R a a) -> StronglySorted R l -> find f l = Some x ->
  forall y, y ∈ l -> f y = true -> R x y.
Proof.
  intros Hrefl Hsorted. induction Hsorted as [|a l Hs IH Hall]; simpl.
  - discriminate.
  - destruct (f a) eqn:Hfa.
    + intros [= <-] y Hy _. apply elem_of_cons in Hy as [->|Hy];
        [apply Hrefl|].
      rewrite Forall_forall in Hall. by apply Hall.
    + intros Hfind y Hy Hfy. apply elem_of_cons in Hy as [->|Hy];
        [congruence|]. by apply IH.
Qed.

Lemma getProperty_key {V} (o : list (string * V)) (k : string) (v : V) :
  getProperty o k = Some v -> k ∈ keys o.
Proof.
  intros H. apply getProperty_elem_of in H.
  unfold keys. apply list_elem_of_fmap. by exists (k, v).
Qed.

(** X13: when the [done] handler makes another document current, then
    [forceFilesOpen] is set, the document that was current (if any) is not
    one of a file with a checked match, and the new one is open, belongs to
    a file of the results with a checked match, and comes first among those
    files in the order of the path comparison (a consistent one). *)
Theorem selectFirstModified_selects_first_modified
    (comparePaths : string -> string -> Z)
    (results : list (string * MatchInfo)) (options : option Options)
    (w : World) (path : string) :
  (forall x y, cmpLe comparePaths x y \/ cmpLe comparePaths y x) ->
  (forall x y z,
     cmpLe comparePaths x y -> cmpLe comparePaths y z ->
     cmpLe comparePaths x z) ->
  currentDocument (selectFirstModified comparePaths results options w)
    = Some path ->
  currentDocument w <> Some path ->
  forceFilesOpen (default noOptions options) = true /\
  (forall current matchInfo,
     currentDocument w = Some current ->
     getProperty results current = Some matchInfo ->
     hasCheckedMatches matchInfo = false) /\
  is_Some (openDocuments w !! path) /\
  (exists matchInfo,
     getProperty results path = Some matchInfo /\
     hasCheckedMatches matchInfo = true) /\
  (forall other matchInfo,
     getProperty results other = Some matchInfo ->
     hasCheckedMatches matchInfo = true ->
     cmpLe comparePaths path other).
Proof.
  intros Htotal Htrans Hnew Hold.
  unfold selectFirstModified in Hnew.
  destruct (forceFilesOpen (default noOptions options)); [|contradiction].
  split; [reflexivity|].
  set (unmodified :=
         match currentDocument w with
         | Some fullPath =>
             match getProperty results fullPath with
             | Some r => negb (hasCheckedMatches r)
             | None => true
             end
         | None => true
         end) in Hnew.
  destruct unmodified eqn:Hun; [|contradiction].
  split.
  { intros current matchInfo Hcur Hget. subst unmodified.
    rewrite Hcur, Hget in Hun. by apply negb_true_iff in Hun. }
  set (hasMatches := fun p : string =>
         match getProperty results p with
         | Some r => hasCheckedMatches r
         | None => false
         end) in Hnew.
  destruct (find hasMatches (sort comparePaths (keys results)))
    as [first|] eqn:Hfind; [|contradiction].
  destruct (String.eqb first EmptyString); [contradiction|].
  unfold getOpenDocumentForPath in Hnew.
  destruct (openDocuments w !! first) as [doc|] eqn:Hdoc; [|contradiction].
  cbn [currentDocument] in Hnew. injection Hnew as ->.
  split; [by rewrite Hdoc|].
  split.
  - apply find_some in Hfind as [_ Hf]. unfold hasMatches in Hf.
    destruct (getProperty results path) as [r|]; [|discriminate].
    by exists r.
  - intros other matchInfo Hget Hchecked.
    apply (find_first_of_sorted (cmpLe comparePaths) hasMatches
             (sort comparePaths (keys results))).
    + intros a. by destruct (Htotal a a).
    + by apply sort_StronglySorted.
    + exact Hfind.
    + rewrite sort_Permutation. by eapply getProperty_key.
    + unfold hasMatches. by rewrite Hget.
Qed.

Lemma selectFirstModified_selects_first_modified_witness :
  let options := Some {| forceFilesOpen := true; isRegexp := false |} in
  let w := Sample.world Sample.threeFiles [("/a.js", newDocument)] in
  (forall x y,
     cmpLe Sample.compareLengths x y \/ cmpLe Sample.compareLengths y x) /\
  (forall x y z,
     cmpLe Sample.compareLengths x y -> cmpLe Sample.compareLengths y z ->
     cmpLe Sample.compareLengths x z) /\
  currentDocument
    (selectFirstModified Sample.compareLengths Sample.threeResults options w)
    = Some "/a.js" /\
  currentDocument w <> Some "/a.js" /\
  is_Some (openDocuments w !! "/a.js").
Proof.
  cbv zeta.
  assert (Hold : currentDocument
                   (Sample.world Sample.threeFiles [("/a.js", newDocument)])
                 <> Some "/a.js") by discriminate.
  split; [exact compareLengths_total|].
  split; [exact compareLengths_trans|].
  split; [reflexivity|]. split; [exact Hold|].
  exact (proj1 (proj2 (proj2
    (selectFirstModified_selects_first_modified Sample.compareLengths
       Sample.threeResults
       (Some {| forceFilesOpen := true; isRegexp := false |})
       (Sample.world Sample.threeFiles [("/a.js", newDocument)]) "/a.js"
       compareLengths_total compareLengths_trans eq_refl Hold)))).
Defined.

(** ** The result store *)

(** X14: for a path other than "__proto__", [addResultMatches] stores,
    under the path, the matches with the timestamp and a collapsed flag that
    is off, in place of what the path had before; the entries of the other
    paths stay, and so do the other fields of the model; and the model has
    results from then on, even when the list of matches is empty.  (For the
    path "__proto__" the assignment sets the prototype of the results
    object instead, and the entries stay as they are.) *)
Theorem addResultMatches_lookup (self : SearchModel.SearchModel)
    (fullpath : string) (ms : list Match) (time : Z) :
  fullpath <> "__proto__" ->
  let self' := SearchModel.addResultMatches self fullpath ms time in
  getProperty (SearchModel.results self') fullpath
  = Some {| matches := ms; collapsed := false; timestamp := time |} /\
  (forall other, other <> fullpath ->
     getProperty (SearchModel.results self') other
     = getProperty (SearchModel.results self) other) /\
  SearchModel.hasResults self' = true /\
  SearchModel.resultsPrototype self' = SearchModel.resultsPrototype self /\
  SearchModel.queryInfo self' = SearchModel.queryInfo self /\
  SearchModel.isReplace self' = SearchModel.isReplace self /\
  SearchModel.replaceText self' = SearchModel.replaceText self /\
  SearchModel.scope self' = SearchModel.scope self /\
  SearchModel.foundMaximum self' = SearchModel.foundMaximum self.
Proof.
  intros Hkey. cbv zeta. unfold SearchModel.addResultMatches.
  rewrite decide_False by exact Hkey.
  cbn [SearchModel.results SearchModel.resultsPrototype
       SearchModel.queryInfo SearchModel.isReplace SearchModel.replaceText
       SearchModel.scope SearchModel.foundMaximum].
  split; [apply getProperty_setProperty|].
  split; [intros other Hne; by apply getProperty_setProperty_ne|].
  split; [|by repeat split].
  unfold SearchModel.hasResults.
  destruct (SearchModel.results self) as [|[k v] r]; [reflexivity|].
  simpl. destruct (decide (k = fullpath)); simpl; apply Z.ltb_lt; lia.
Qed.

Lemma addResultMatches_lookup_witness :
  let self' :=
    SearchModel.addResultMatches SearchModel.create.1 "/a.js" [] 1000 in
  "/a.js" <> "__proto__" /\
  getProperty (SearchModel.results self') "/a.js"
  = Some {| matches := []; collapsed := false; timestamp := 1000 |} /\
  SearchModel.hasResults self' = true.
Proof.
  cbv zeta.
  assert (Hkey : "/a.js" <> "__proto__") by discriminate.
  split; [exact Hkey|].
  destruct (addResultMatches_lookup SearchModel.create.1 "/a.js" [] 1000
              Hkey) as (Hget & _ & Hhas & _).
  split; [exact Hget|exact Hhas].
Defined.

(** The key "__proto__" adds no entry: the paths of the store, and with
    them [hasResults] and [countFilesMatches], stay as they are. *)
Lemma addResultMatches_proto (self : SearchModel.SearchModel)
    (ms : list Match) (time : Z) :
  SearchModel.results
    (SearchModel.addResultMatches self "__proto__" ms time)
  = SearchModel.results self.
Proof. reflexivity. Qed.

(** X15: [countFilesMatches] returns the number of paths of the store and
    the sum of the numbers of matches of their entries, and [hasResults]
    holds exactly when that number of files is positive. *)
Theorem countFilesMatches_counts (self : SearchModel.SearchModel) :
  (SearchModel.countFilesMatches self).1
  = Z.of_nat (length (keys (SearchModel.results self))) /\
  (SearchModel.countFilesMatches self).2
  = foldr (fun entry n => Z.of_nat (length (matches entry.2)) + n) 0
          (SearchModel.results self) /\
  SearchModel.hasResults self
  = (0 <? (SearchModel.countFilesMatches self).1).
Proof.
  rewrite countFilesMatches_spec. cbn [fst snd].
  unfold SearchModel.hasResults, keys. rewrite length_map.
  by repeat split.
Qed.

Lemma insert_by_ext {A} (cmp cmp' : A -> A -> Z) (x : A) (l : list A) :
  (forall y, y ∈ l -> cmp x y = cmp' x y) ->
  insert_by cmp x l = insert_by cmp' x l.
Proof.
  induction l as [|y r IH]; intros Hagree; [reflexivity|].
  simpl. rewrite (Hagree y) by (by left).
  destruct (cmp' x y <=? 0); [reflexivity|].
  f_equal. apply IH. intros z Hz. apply Hagree. by right.
Qed.

Lemma sort_ext {A} (cmp cmp' : A -> A -> Z) (l : list A) :
  (forall x y, x ∈ l -> y ∈ l -> cmp x y = cmp' x y) ->
  sort cmp l = sort cmp' l.
Proof.
  induction l as [|x r IH]; intros Hagree; [reflexivity|].
  unfold sort in *. simpl. rewrite IH.
  - apply insert_by_ext. intros y Hy. apply Hagree; [by left|].
    right. by rewrite <- (sort_Permutation cmp' r).
  - intros a b Ha Hb. apply Hagree; by right.
Qed.

(** X16: when no selected entry is among the paths of the store,
    [getSortedFiles] returns what sorting the paths with the path comparison
    alone returns: the order [performReplacements] goes by when it looks for
    the first changed file. *)
Theorem getSortedFiles_without_selected_entry
    (comparePaths : string -> string -> Z) (self : SearchModel.SearchModel) :
  (forall selected,
     SearchModel._selectedEntry self = Some selected ->
     selected ∉ keys (SearchModel.results self)) ->
  SearchModel.getSortedFiles comparePaths self
  = sort comparePaths (keys (SearchModel.results self)).
Proof.
  intros Hout. unfold SearchModel.getSortedFiles. apply sort_ext.
  intros x y Hx Hy. unfold SearchModel.compareKeys.
  rewrite !decide_False; [reflexivity|..]; intros Hsel;
    by apply (Hout _ Hsel).
Qed.

Lemma getSortedFiles_without_selected_entry_witness :
  let self :=
    Sample.model
      [("/bb.js", Sample.info []); ("/a.js", Sample.info [])]
      (Some "/other.js") in
  (forall selected,
     SearchModel._selectedEntry self = Some selected ->
     selected ∉ keys (SearchModel.results self)) /\
  SearchModel.getSortedFiles Sample.compareLengths self
  = ["/a.js"; "/bb.js"].
Proof.
  cbv zeta.
  assert (H : forall selected,
    SearchModel._selectedEntry
      (Sample.model [("/bb.js", Sample.info []); ("/a.js", Sample.info [])]
         (Some "/other.js")) = Some selected ->
    selected ∉ keys (SearchModel.results
      (Sample.model [("/bb.js", Sample.info []); ("/a.js", Sample.info [])]
         (Some "/other.js")))).
  { intros selected [= <-]. apply (bool_decide_unpack _). by vm_compute. }
  split; [exact H|].
  exact (getSortedFiles_without_selected_entry Sample.compareLengths _ H).
Defined.

(** X17: a store that was made by the constructor and changed by [clear]
    and [addResultMatches] only holds every path once. *)
Theorem Built_keys_distinct (self : SearchModel.SearchModel) :
  Built self -> NoDup (keys (SearchModel.results self)).
Proof.
  induction 1 as [|self _ _|self fullpath ms time _ IH].
  - apply NoDup_nil_2.
  - apply NoDup_nil_2.
  - unfold SearchModel.addResultMatches.
    destruct (decide (fullpath = "__proto__")); [exact IH|].
    cbn [SearchModel.results]. rewrite keys_setProperty.
    destruct (decide (fullpath ∈ keys (SearchModel.results self)));
      [exact IH|].
    apply NoDup_app. split; [exact IH|].
    split; [|apply NoDup_singleton].
    intros x Hx Hx'. apply list_elem_of_singleton in Hx' as ->.
    contradiction.
Qed.

Lemma Built_keys_distinct_witness :
  let self :=
    SearchModel.addResultMatches
      (SearchModel.addResultMatches SearchModel.create.1 "/a.js"
         [Sample.foo] 1000)
      "/a.js" [Sample.bar] 2000 in
  Built self /\ NoDup (keys (SearchModel.results self)).
Proof.
  cbv zeta.
  assert (H : Built
    (SearchModel.addResultMatches
       (SearchModel.addResultMatches SearchModel.create.1 "/a.js"
          [Sample.foo] 1000)
       "/a.js" [Sample.bar] 2000))
    by (do 2 apply Built_add; apply Built_create).
  split; [exact H|]. exact (Built_keys_distinct _ H).
Defined.
